(** * gribouillis: the bounded image directory and the ingestion pipeline

    A shallow embedding of [gribouillis.go] (the version with [LimitedDir]):
    the quota-enforcing directory registry ([OpenLimitedDir], [shrink],
    [Add], [List]), the padding step of [fixImage], [save] and the rate gate
    of the [/save/] handler.

    Conventions.
    - Go's [int64] and [int] are integers of [Z]; every addition and
      subtraction the source performs on them is wrapped by [wrap64].
    - A Go function returning [error] returns a [status]; a run-time panic
      (index out of range) is the third status.
    - The receiver [d *LimitedDir] and the file system are threaded
      explicitly: a method returns the new file system and the new value of
      [d] together with its status, also when it fails, because Go mutates
      [d] in place before returning the error. *)

From Stdlib Require Import ZArith Lia Ascii.
From Stdlib.Strings Require Byte.
From stdpp Require Import base option list sorting gmap strings.

Local Open Scope Z_scope.

(** ** Machine integers *)

Module Int64.

Definition min_int : Z := - 2 ^ 63.
Definition max_int : Z := 2 ^ 63 - 1.

(** Two's complement wrap-around of a 64-bit signed result. *)
Definition wrap64 (z : Z) : Z := (z + 2 ^ 63) mod 2 ^ 64 - 2 ^ 63.

Definition in_range (z : Z) : Prop := min_int ≤ z ≤ max_int.

End Int64.

Export Int64.

(** ** Errors *)

(** The error values the modelled calls can return.  Only [ENOENT] is
    recognised by [os.IsNotExist]. *)
Inductive error : Type :=
  | ENOENT      (* no such file or directory *)
  | ENOTDIR     (* a path component is not a directory *)
  | ENOTEMPTY   (* directory not empty *)
  | EISDIR      (* is a directory *)
  | EACCES      (* permission denied *)
  | EIO         (* input/output error on a write or a close *)
  | ErrRand     (* crypto/rand could not deliver *)
  | ErrFormat   (* png: invalid format *)
  | ErrEncode   (* png: the image cannot be encoded *)
  | ErrJSON.    (* the response could not be written *)

Definition os_IsNotExist (e : error) : bool :=
  match e with ENOENT => true | _ => false end.

(** What a call hands back: [nil], an error, or a panic. *)
Inductive status : Type :=
  | Nil
  | Error (e : error)
  | Panic.

#[global] Instance error_eq_dec : EqDecision error.
Proof. solve_decision. Defined.

#[global] Instance status_eq_dec : EqDecision status.
Proof. solve_decision. Defined.

(** ** The file system, as far as the program touches it *)

Module OS.

(** A directory entry.  [pinned] entries refuse removal and truncation
    with [EACCES]: they stand for every deletion failure other than the
    file being absent. *)
Record Node : Type := mkNode {
  isRegular : bool;
  nodeSize : N;       (* length in bytes *)
  nodeModTime : Z;
  pinned : bool
}.

(** The state found at the managed directory's path. *)
Inductive DirState : Type :=
  | Absent                                         (* nothing there *)
  | NotDir                                         (* a file is in the way *)
  | Dir (readable : bool) (entries : gmap string Node).

(** The file system is the managed directory [root] and its entries; every
    other path is outside the model and does not exist. *)
Record FS : Type := mkFS {
  root : string;
  state : DirState
}.

(** [os.FileInfo], the fields the program reads.  [Size()] is an [int64];
    the length of a file is never negative. *)
Record FileInfo : Type := mkFileInfo {
  fiName : string;
  fiSize : Z;
  fiRegular : bool;   (* Mode().IsRegular() *)
  fiModTime : Z       (* ModTime(), in nanoseconds *)
}.

(** [filepath.Join(dir, name)]: empty elements are dropped, so joining the
    empty name gives the directory itself. *)
Definition filepath_Join (dir name : string) : string :=
  if decide (name = "") then dir else dir +:+ "/" +:+ name.

Fixpoint strip_prefix (p s : string) : option string :=
  match p, s with
  | EmptyString, _ => Some s
  | String a p', String b s' =>
      if decide (a = b) then strip_prefix p' s' else None
  | String _ _, EmptyString => None
  end.

(** Where a path points, relative to the managed directory. *)
Inductive target : Type :=
  | Self
  | Entry (name : string)
  | Outside.

Definition locate (fs : FS) (p : string) : target :=
  if decide (p = root fs) then Self
  else match strip_prefix (root fs +:+ "/") p with
       | Some name => Entry name
       | None => Outside
       end.

Definition info_of (name : string) (n : Node) : FileInfo :=
  {| fiName := name; fiSize := Z.of_N (nodeSize n);
     fiRegular := isRegular n; fiModTime := nodeModTime n |}.

(** Size reported for the directory itself (system dependent; one block). *)
Definition dir_block : Z := 4096.

(** [os.Stat(p)]. *)
Definition os_Stat (fs : FS) (p : string) : FileInfo + error :=
  match state fs with
  | Absent => inr ENOENT
  | NotDir => if decide (p = root fs) then inl (mkFileInfo p 0 true 0)
              else inr ENOTDIR
  | Dir _ es =>
      match locate fs p with
      | Self => inl (mkFileInfo p dir_block false 0)
      | Entry name =>
          match es !! name with
          | Some n => inl (info_of name n)
          | None => inr ENOENT
          end
      | Outside => inr ENOENT
      end
  end.

(** [os.Remove(p)]: unlink a file, or remove an empty directory. *)
Definition os_Remove (fs : FS) (p : string) : FS * option error :=
  match state fs with
  | Absent => (fs, Some ENOENT)
  | NotDir => if decide (p = root fs) then (mkFS (root fs) Absent, None)
              else (fs, Some ENOTDIR)
  | Dir r es =>
      match locate fs p with
      | Self => if decide (es = ∅) then (mkFS (root fs) Absent, None)
                else (fs, Some ENOTEMPTY)
      | Entry name =>
          match es !! name with
          | Some n => if pinned n then (fs, Some EACCES)
                      else (mkFS (root fs) (Dir r (delete name es)), None)
          | None => (fs, Some ENOENT)
          end
      | Outside => (fs, Some ENOENT)
      end
  end.

(** [os.MkdirAll(p, perm)]. *)
Definition os_MkdirAll (fs : FS) (p : string) : FS * option error :=
  if decide (p = root fs) then
    match state fs with
    | Absent => (mkFS (root fs) (Dir true ∅), None)
    | NotDir => (fs, Some ENOTDIR)
    | Dir _ _ => (fs, None)
    end
  else (fs, Some EACCES).

(** Go's [sort.Sort] over an interface whose [Less] is [less]: the result
    is a permutation ordered by [less]; equal elements may end in any
    order.  This is the insertion sort the library runs on short slices. *)
Fixpoint insert_by {A} (less : A → A → bool) (x : A) (l : list A) : list A :=
  match l with
  | [] => [x]
  | y :: l' => if less x y then x :: y :: l' else y :: insert_by less x l'
  end.

Definition sort_Sort {A} (less : A → A → bool) (l : list A) : list A :=
  foldl (λ acc x, insert_by less x acc) [] l.

(** [ioutil.ReadDir(p)]: the entries of the directory, sorted by file
    name. *)
Definition ioutil_ReadDir (fs : FS) (p : string) : list FileInfo + error :=
  match state fs with
  | Absent => inr ENOENT
  | NotDir => inr ENOTDIR
  | Dir r es =>
      if decide (p = root fs) then
        if r then
          inl (sort_Sort (λ a b, String.ltb (fiName a) (fiName b))
                 (map (λ kv, info_of kv.1 kv.2) (map_to_list es)))
        else inr EACCES
      else inr ENOENT
  end.

(** [os.Create(p)] at clock reading [now]: a new empty regular file, or an
    existing regular file truncated. *)
Definition os_Create (now : Z) (fs : FS) (p : string) : FS * option error :=
  match state fs with
  | Absent => (fs, Some ENOENT)
  | NotDir => (fs, Some ENOTDIR)
  | Dir r es =>
      match locate fs p with
      | Self => (fs, Some EISDIR)
      | Entry name =>
          match es !! name with
          | Some n =>
              if negb (isRegular n) then (fs, Some EISDIR)
              else if pinned n then (fs, Some EACCES)
              else (mkFS (root fs)
                      (Dir r (<[name := mkNode true 0 now false]> es)), None)
          | None =>
              (mkFS (root fs)
                 (Dir r (<[name := mkNode true 0 now false]> es)), None)
          end
      | Outside => (fs, Some ENOENT)
      end
  end.

(** The bytes written through an open file: the entry, when it is still
    there, gets length [len]. *)
Definition os_Write (now : Z) (fs : FS) (p : string) (len : N) : FS :=
  match state fs with
  | Dir r es =>
      match locate fs p with
      | Entry name =>
          match es !! name with
          | Some n => mkFS (root fs)
                        (Dir r (<[name := mkNode (isRegular n) len now (pinned n)]> es))
          | None => fs
          end
      | _ => fs
      end
  | _ => fs
  end.

End OS.

Export OS.

(** ** LimitedDir: the bounded directory *)

(** [type File struct { Name string; Size int64 }] *)
Record File : Type := mkFile {
  Name : string;
  Size : Z
}.

(** [type LimitedDir struct]; the mutex is not a field of the model, whose
    operations run one at a time. *)
Record LimitedDir : Type := mkLimitedDir {
  path : string;
  maxSize : Z;
  maxCount : Z;
  files : list File;
  size : Z
}.

#[global] Instance File_eq_dec : EqDecision File.
Proof. solve_decision. Defined.

(** [len(s)] of a slice, as an [int]. *)
Definition len {A} (l : list A) : Z := Z.of_nat (length l).

(** [sortedFiles.Less]: [ti != tj && tj.After(ti)]. *)
Definition time_After (t u : Z) : bool := u <? t.

Definition sortedFiles_Less (a b : FileInfo) : bool :=
  let ti := fiModTime a in
  let tj := fiModTime b in
  negb (ti =? tj) && time_After tj ti.

(** The zero value [File{}] that [make([]File, n)] fills the slice with. *)
Definition zero_File : File := {| Name := ""; Size := 0 |}.

(** The loop of [OpenLimitedDir] over [entries], from index [i] on:
    an entry that is not a regular file is skipped by [continue], which
    leaves [files[i]] as [make] allocated it. *)
Fixpoint scan_entries (i : nat) (entries : list FileInfo)
    (files : list File) (total : Z) : list File * Z :=
  match entries with
  | [] => (files, total)
  | e :: rest =>
      if negb (fiRegular e) then scan_entries (S i) rest files total
      else
        let f := {| Name := fiName e; Size := fiSize e |} in
        scan_entries (S i) rest (<[i := f]> files) (wrap64 (total + Size f))
  end.

(** Lines 102-113: [files := make([]File, len(entries))], [total := 0] and
    the loop. *)
Definition scan (entries : list FileInfo) : list File * Z :=
  scan_entries 0 entries (replicate (length entries) zero_File) 0.

(** The condition of the eviction loop. *)
Definition over_quota (maxSize maxCount size : Z) (files : list File) : bool :=
  ((maxSize <? size) && (0 <? len files)) || (maxCount <? len files).

(** The loop of [shrink] on the fields it changes.  [d.files[0]] on an
    empty slice panics; an error of [os.Remove] other than "not exist"
    returns before [d.files] is advanced. *)
Fixpoint shrink_loop (dir : string) (maxSize maxCount : Z)
    (fs : FS) (size : Z) (files : list File) : FS * (Z * list File) * status :=
  if over_quota maxSize maxCount size files then
    match files with
    | [] => (fs, (size, files), Panic)
    | f :: rest =>
        let p := filepath_Join dir (Name f) in
        match os_Remove fs p with
        | (fs', Some err) =>
            if negb (os_IsNotExist err) then (fs', (size, files), Error err)
            else shrink_loop dir maxSize maxCount fs' size rest
        | (fs', None) =>
            shrink_loop dir maxSize maxCount fs' (wrap64 (size - Size f)) rest
        end
    end
  else (fs, (size, files), Nil).

Definition with_files (d : LimitedDir) (size : Z) (files : list File) : LimitedDir :=
  {| path := path d; maxSize := maxSize d; maxCount := maxCount d;
     files := files; size := size |}.

(** [func (d *LimitedDir) shrink() error] *)
Definition shrink (fs : FS) (d : LimitedDir) : FS * LimitedDir * status :=
  let '(fs', (sz, fl), st) :=
    shrink_loop (path d) (maxSize d) (maxCount d) fs (size d) (files d) in
  (fs', with_files d sz fl, st).

(** The append and the addition of [Add], before eviction. *)
Definition register (d : LimitedDir) (name : string) (sz : Z) : LimitedDir :=
  with_files d (wrap64 (size d + sz)) (files d ++ [{| Name := name; Size := sz |}]).

(** [func (d *LimitedDir) Add(name string) error] *)
Definition Add (fs : FS) (d : LimitedDir) (name : string) : FS * LimitedDir * status :=
  match os_Stat fs (filepath_Join (path d) name) with
  | inr err => (fs, d, Error err)
  | inl st => shrink fs (register d name (fiSize st))
  end.

(** [func (d *LimitedDir) List() []string] *)
Definition List (d : LimitedDir) : list string :=
  foldl (λ names f, names ++ [Name f]) [] (files d).

(** [func (d *LimitedDir) Path() string] *)
Definition Path (d : LimitedDir) : string := path d.

(** [func OpenLimitedDir(path, maxSize, maxCount)]: the pointer returned
    with an error is nil, so no store is handed out then. *)
Definition OpenLimitedDir (fs : FS) (dir : string) (maxSize maxCount : Z)
    : FS * option LimitedDir * status :=
  match os_MkdirAll fs dir with
  | (fs1, Some err) => (fs1, None, Error err)
  | (fs1, None) =>
      match ioutil_ReadDir fs1 dir with
      | inr err => (fs1, None, Error err)
      | inl entries0 =>
          let entries := sort_Sort sortedFiles_Less entries0 in
          let '(files, total) := scan entries in
          let d := {| path := dir; maxCount := maxCount; files := files;
                      size := total; maxSize := maxSize |} in
          match shrink fs1 d with
          | (fs2, d', Nil) => (fs2, Some d', Nil)
          | (fs2, _, st) => (fs2, None, st)
          end
      end
  end.

(** *** The helpers of the repository's test *)

(** [ioutil.WriteFile(path, make([]byte, size), 0644)] at clock [now]. *)
Definition writeFile (now : Z) (fs : FS) (dir name : string) (sz : N) : FS :=
  let p := filepath_Join dir name in
  os_Write now (os_Create now fs p).1 p sz.

(** [addFile]: write, then [d.Add]. *)
Definition addFile (now : Z) (w : FS * LimitedDir) (name : string) (sz : N)
    : FS * LimitedDir * status :=
  Add (writeFile now w.1 (path w.2) name sz) w.2 name.

Definition tmpDir : string := "tmp".
Definition fs_empty : FS := mkFS tmpDir (Dir true ∅).

(** *** States of the store *)

(** The states a store passes through between calls: the one
    [OpenLimitedDir] returns, and the one any [Add] leaves behind, whatever
    it returned and whatever happened to the directory in between (each
    [Add] meets an arbitrary file system). *)
Inductive reachable : LimitedDir → Prop :=
  | reach_open fs dir ms mc fs' d :
      OpenLimitedDir fs dir ms mc = (fs', Some d, Nil) → reachable d
  | reach_add fs d name fs' d' st :
      reachable d → Add fs d name = (fs', d', st) → reachable d'.

(** The states a caller observes after a successful call: after
    [OpenLimitedDir] returned a store, and after an [Add] returned [nil]. *)
Inductive settled : LimitedDir → Prop :=
  | settled_open fs dir ms mc fs' d :
      OpenLimitedDir fs dir ms mc = (fs', Some d, Nil) → settled d
  | settled_add fs d name fs' d' :
      reachable d → Add fs d name = (fs', d', Nil) → settled d'.

(** The sum of the sizes of the tracked files, as a mathematical integer. *)
Definition sumSizes (fl : list File) : Z := foldr (λ f acc, Size f + acc) 0 fl.

(** The quota condition of the specification. *)
Definition within_quota (d : LimitedDir) : Prop :=
  size d ≤ maxSize d ∧ len (files d) ≤ maxCount d.

(** The running total covers the tracked files and fits an [int64]. *)
Definition accounted (d : LimitedDir) : Prop :=
  Forall (λ f, 0 ≤ Size f) (files d) ∧
  sumSizes (files d) ≤ size d ∧ size d ≤ max_int.

(** The tracked files have distinct, non-empty names and are all among the
    entries [es] of the directory. *)
Definition on_disk (es : gmap string Node) (fl : list File) : Prop :=
  NoDup (map Name fl) ∧
  Forall (λ f, Name f ≠ "" ∧ is_Some (es !! Name f)) fl.

(** *** Concrete stores used as examples *)

(** A store opened over an empty directory with the limits of the
    repository's test: 5 bytes, 4 files. *)
Definition d_fresh : LimitedDir := mkLimitedDir tmpDir 5 4 [] 0.

(** The same store after a file of 5 bytes was written and added. *)
Definition fs_five : FS := writeFile 0 fs_empty tmpDir "9-5" 5.
Definition d_five : LimitedDir := mkLimitedDir tmpDir 5 4 [mkFile "9-5" 5] 5.

(** ... and the directory once a file of 6 bytes has been written too. *)
Definition fs_six : FS := writeFile 1 fs_five tmpDir "10-6" 6.

(** A script of [addFile] calls; the clock reading of each write is its
    position in the script. *)
Definition replay (w : FS * LimitedDir) (script : list (string * N))
    : FS * LimitedDir :=
  (foldl (λ acc x, ((addFile acc.2 acc.1 x.1 x.2).1, acc.2 + 1))
         (w, 0) script).1.

Definition test_maxcount : list (string * N) :=
  [("0-1", 1); ("1-1", 1); ("2-1", 1); ("3-1", 1); ("4-1", 1)]%N.

Definition test_reopen : list (string * N) :=
  [("11-1", 1); ("12-1", 1); ("13-2", 2); ("14-1", 1); ("15-2", 2)]%N.

(** A store whose byte limit is two below the largest [int64], tracking one
    file of 5 bytes, and a directory holding a second file of [2^63 - 1]
    bytes. *)
Definition huge : N := 9223372036854775807.
Definition fs_small : FS := writeFile 0 fs_empty tmpDir "a" 5.
Definition fs_huge : FS := writeFile 1 fs_small tmpDir "b" huge.
Definition d_wide : LimitedDir :=
  mkLimitedDir tmpDir (max_int - 1) 4 [mkFile "a" 5] 5.
Definition d_wrapped : LimitedDir :=
  mkLimitedDir tmpDir (max_int - 1) 4
    [mkFile "a" 5; mkFile "b" (Z.of_N huge)] (min_int + 4).

(** "Exactly one of" two propositions. *)
Definition exactly_one (P Q : Prop) : Prop := (P ∧ ¬ Q) ∨ (¬ P ∧ Q).

(** The directory after the only tracked file, "a" of 3 bytes, was deleted
    behind the store's back and a file "b" of 3 bytes was written. *)
Definition fs_a : FS := writeFile 0 fs_empty tmpDir "a" 3.
Definition d_a : LimitedDir := mkLimitedDir tmpDir 5 4 [mkFile "a" 3] 3.
Definition fs_gone : FS := (os_Remove fs_a (filepath_Join tmpDir "a")).1.
Definition fs_b : FS := writeFile 1 fs_gone tmpDir "b" 3.
Definition d_drift : LimitedDir := mkLimitedDir tmpDir 5 4 [] 3.
Definition fs_c : FS := writeFile 2 fs_empty tmpDir "c" 3.

(** How many tracked entries carry [name]. *)
Definition tracked_times (name : string) (d : LimitedDir) : nat :=
  length (filter (λ f, Name f = name) (files d)).

(** A store with room: 10 bytes, 4 files, tracking "a" of 3 bytes. *)
Definition d_roomy : LimitedDir := mkLimitedDir tmpDir 10 4 [mkFile "a" 3] 3.

(** A store for three files and the four directory states of the
    example. *)
Definition d_three : LimitedDir := mkLimitedDir tmpDir 100 3 [] 0.
Definition fs_A : FS := writeFile 1 fs_empty tmpDir "A" 10.
Definition fs_AB : FS := writeFile 2 fs_A tmpDir "B" 20.
Definition fs_ABC : FS := writeFile 3 fs_AB tmpDir "C" 30.
Definition fs_ABCD : FS := writeFile 4 fs_ABC tmpDir "D" 40.

(** *** What loading the directory computes *)

(** What the loop of [OpenLimitedDir] leaves at the index of an entry. *)
Definition slot (e : FileInfo) : File :=
  if fiRegular e then mkFile (fiName e) (fiSize e) else zero_File.

(** The running total after an entry. *)
Definition add_size (total : Z) (e : FileInfo) : Z :=
  if fiRegular e then wrap64 (total + fiSize e) else total.

(** Entries in ascending order of modification time. *)
Definition by_mtime (a b : FileInfo) : Prop := fiModTime a ≤ fiModTime b.

(** A directory holding a sub-directory "old" and one image of 3 bytes. *)
Definition fs_mixed : FS :=
  mkFS tmpDir (Dir true (<["old" := mkNode false 4096 1 false]>
                         (<["a.png" := mkNode true 3 2 false]> ∅))).

(** ** Images: the padding step of [fixImage] *)

Module Img.

(** [image.Point] and [image.Rectangle]. *)
Record Point : Type := Pt { X : Z; Y : Z }.
Record Rectangle : Type := mkRect { Min : Point; Max : Point }.

(** [image.Rect(x0, y0, x1, y1)]: the corners are put in order. *)
Definition Rect (x0 y0 x1 y1 : Z) : Rectangle :=
  let '(x0, x1) := if x1 <? x0 then (x1, x0) else (x0, x1) in
  let '(y0, y1) := if y1 <? y0 then (y1, y0) else (y0, y1) in
  mkRect (Pt x0 y0) (Pt x1 y1).

(** [p.In(r)] *)
Definition Point_In (p : Point) (r : Rectangle) : bool :=
  (X (Min r) <=? X p) && (X p <? X (Max r)) &&
  (Y (Min r) <=? Y p) && (Y p <? Y (Max r)).

Definition Dx (r : Rectangle) : Z := X (Max r) - X (Min r).
Definition Dy (r : Rectangle) : Z := Y (Max r) - Y (Min r).

(** The colour types of [image/color] that the PNG decoder produces.
    Channels are [uint8] or [uint16] fields. *)
Inductive Color : Type :=
  | RGBA (r g b a : Z)      (* 8 bits, alpha-premultiplied *)
  | RGBA64 (r g b a : Z)    (* 16 bits, alpha-premultiplied *)
  | NRGBA (r g b a : Z)     (* 8 bits, not premultiplied *)
  | NRGBA64 (r g b a : Z)   (* 16 bits, not premultiplied *)
  | Gray (y : Z)            (* 8 bits *)
  | Gray16 (y : Z).         (* 16 bits *)

#[global] Instance Color_eq_dec : EqDecision Color.
Proof. solve_decision. Defined.

(** [r |= r << 8]: an 8-bit channel spread over 16 bits. *)
Definition spread (c : Z) : Z := Z.lor c (Z.shiftl c 8).

(** The method [RGBA() (r, g, b, a uint32)] of [color.Color]: 16-bit
    alpha-premultiplied channels. *)
Definition Color_RGBA (c : Color) : Z * Z * Z * Z :=
  match c with
  | RGBA r g b a => (spread r, spread g, spread b, spread a)
  | RGBA64 r g b a => (r, g, b, a)
  | NRGBA r g b a =>
      (spread r * a / 255, spread g * a / 255, spread b * a / 255, spread a)
  | NRGBA64 r g b a => (r * a / 65535, g * a / 65535, b * a / 65535, a)
  | Gray y => (spread y, spread y, spread y, 65535)
  | Gray16 y => (y, y, y, 65535)
  end.

(** The conversion [uint8(v >> 8)]. *)
Definition high_byte (v : Z) : Z := Z.shiftr v 8 mod 256.

(** [color.RGBAModel.Convert] *)
Definition rgbaModel (c : Color) : Color :=
  match c with
  | RGBA _ _ _ _ => c
  | _ => let '(r, g, b, a) := Color_RGBA c in
         RGBA (high_byte r) (high_byte g) (high_byte b) (high_byte a)
  end.

(** [image.Image]: what [png.Decode] returns, seen through the interface. *)
Record Image : Type := mkImage {
  Bounds : Rectangle;
  At : Z → Z → Color
}.

(** [*image.RGBA]; the pixel buffer is indexed by coordinates instead of by
    byte offset. *)
Record RGBAImage : Type := mkRGBA {
  Pix : Z → Z → Color;
  RGBARect : Rectangle
}.

(** [image.NewRGBA(r)]: every pixel is the zero [color.RGBA]. *)
Definition NewRGBA (r : Rectangle) : RGBAImage :=
  {| Pix := λ _ _, RGBA 0 0 0 0; RGBARect := r |}.

(** [(p *RGBA) Set(x, y, c)]: ignored outside the rectangle, stored through
    [color.RGBAModel] inside. *)
Definition RGBA_Set (p : RGBAImage) (x y : Z) (c : Color) : RGBAImage :=
  if negb (Point_In (Pt x y) (RGBARect p)) then p
  else {| Pix := λ x' y', if (x' =? x) && (y' =? y) then rgbaModel c
                          else Pix p x' y';
          RGBARect := RGBARect p |}.

(** [(p *RGBA) At(x, y)] *)
Definition RGBA_At (p : RGBAImage) (x y : Z) : Color :=
  if negb (Point_In (Pt x y) (RGBARect p)) then RGBA 0 0 0 0
  else Pix p x y.

Definition white : Color := RGBA 255 255 255 255.

(** The values a counting loop [for i := lo; i < hi; i++] takes. *)
Definition loop_range (lo hi : Z) : list Z := seqZ lo (hi - lo).

(** The body of the inner loop of [fixImage]. *)
Definition pad_pixel (src : Image) (j : Z) (dst : RGBAImage) (i : Z) : RGBAImage :=
  let srcRect := Bounds src in
  if (X (Min srcRect) <=? i) && (i <? X (Max srcRect)) &&
     (Y (Min srcRect) <=? j) && (j <? Y (Max srcRect))
  then RGBA_Set dst i j (At src i j)
  else RGBA_Set dst i j white.

(** Lines 185-199 of [fixImage]: from the decoded image to the padded
    canvas.  The four corner computations are [int] arithmetic. *)
Definition pad (src : Image) (padding : Z) : RGBAImage :=
  let srcRect := Bounds src in
  let dstRect := Rect (wrap64 (X (Min srcRect) - padding))
                      (wrap64 (Y (Min srcRect) - padding))
                      (wrap64 (X (Max srcRect) + padding))
                      (wrap64 (Y (Max srcRect) + padding)) in
  let dst := NewRGBA dstRect in
  foldl (λ dst j,
           foldl (pad_pixel src j) dst
             (loop_range (X (Min dstRect)) (X (Max dstRect))))
        dst (loop_range (Y (Min dstRect)) (Y (Max dstRect))).

(** The bounds of an image the PNG decoder returns: anchored at the origin,
    with a width and a height that are positive and fit 31 bits. *)
Definition decoded_bounds (r : Rectangle) : Prop :=
  Min r = Pt 0 0 ∧ 0 < X (Max r) < 2 ^ 31 ∧ 0 < Y (Max r) < 2 ^ 31.

(** Two colours are the same colour when [RGBA()] cannot tell them
    apart. *)
Definition same_colour (c1 c2 : Color) : Prop := Color_RGBA c1 = Color_RGBA c2.

(** A colour that 8 bits per channel represent exactly: each 16-bit
    channel repeats its high byte. *)
Definition eight_bit (c : Color) : Prop :=
  let '(r, g, b, a) := Color_RGBA c in
  Forall (λ v, ∃ k, 0 ≤ k < 256 ∧ v = 257 * k) [r; g; b; a].

(** What the loops write at [(i, j)]. *)
Definition painted (src : Image) (i j : Z) : Color :=
  if Point_In (Pt i j) (Bounds src) then rgbaModel (At src i j) else white.

(** *** Example images *)

(** A 1x1 image of a 16-bit gray level, as a 16-bit PNG decodes to. *)
Definition deep_gray : Image :=
  mkImage (mkRect (Pt 0 0) (Pt 1 1)) (λ _ _, Gray16 4660).

(** A 2x2 image of one opaque 8-bit colour. *)
Definition solid : Image :=
  mkImage (mkRect (Pt 0 0) (Pt 2 2)) (λ _ _, NRGBA 10 20 30 255).

End Img.

(** ** The ingestion pipeline *)

(** One request and the answers of its environment: the clock, the random
    source, the body, and the faults of the writes to the open file, of its
    [Close] and of the response writer. *)
Record Request : Type := mkRequest {
  arrival : Z;                          (* [time.Now()] in the handler *)
  rand_Read : list Byte.byte + error;   (* the 16 bytes of [buf] *)
  Body : list Byte.byte;
  write_fault : option (N * error);     (* bytes written before the error *)
  close_fault : option error;
  reply_fault : option error
}.

(** [fmt.Sprintf("%x", buf)]: two lower-case hexadecimal digits a byte. *)
Definition hex_digit (n : N) : ascii :=
  match n with
  | 0 => "0" | 1 => "1" | 2 => "2" | 3 => "3" | 4 => "4" | 5 => "5"
  | 6 => "6" | 7 => "7" | 8 => "8" | 9 => "9" | 10 => "a" | 11 => "b"
  | 12 => "c" | 13 => "d" | 14 => "e" | _ => "f"
  end%N%char.

Definition hex (buf : list Byte.byte) : string :=
  foldr (λ b s, String (hex_digit (Byte.to_N b / 16))
                  (String (hex_digit (Byte.to_N b mod 16)) s)) "" buf.

(** [&io.LimitedReader{R: body, N: n}]: at most [n] bytes are delivered,
    none when [n] is not positive. *)
Definition io_LimitedReader (body : list Byte.byte) (n : Z) : list Byte.byte :=
  take (Z.to_nat n) body.

(** The answers of the [/save/] handler. *)
Inductive reply : Type :=
  | Saved (public : string)   (* 200, [{"path": public}] *)
  | RateLimited               (* 429, "rate limited" *)
  | SaveError (e : error)     (* 500, "could not save image: ..." *)
  | Aborted.                  (* the handler panicked; net/http drops the connection *)

(** The state shared by all requests: the variables [lastTime] and
    [imgDir] of [gribouillis()], and the disk. *)
Record Server : Type := mkServer {
  lastTime : Z;
  imgDir : LimitedDir;
  disk : FS
}.

(** [t.Sub(u)]: the difference as a [time.Duration], saturating at the
    ends of [int64]. *)
Definition time_Sub (t u : Z) : Z := Z.max min_int (Z.min max_int (t - u)).

(** Lines 302-314 of the handler, run without interruption: the check of
    the last accepted time and its update.  [true] lets the request in. *)
Definition gate (minDelay : Z) (s : Server) (now : Z) : Server * bool :=
  let last := lastTime s in
  if time_Sub now last <? minDelay then (s, false)
  else ({| lastTime := now; imgDir := imgDir s; disk := disk s |}, true).

Section pipeline.

(** The PNG codec of the standard library. *)
Variable png_Decode : list Byte.byte → Img.Image + error.
Variable png_Encode : Img.RGBAImage → list Byte.byte + error.

(** [func fixImage(w io.Writer, r io.Reader, padding int) error], writing
    to the file at [fp]. *)
Definition fixImage (now : Z) (fs : FS) (fp : string)
    (r : list Byte.byte) (padding : Z) (fault : option (N * error)) : FS * status :=
  match png_Decode r with
  | inr err => (fs, Error err)
  | inl src =>
      let dst := Img.pad src padding in
      match png_Encode dst with
      | inr err => (fs, Error err)
      | inl out =>
          match fault with
          | Some (written, err) => (os_Write now fs fp written, Error err)
          | None => (os_Write now fs fp (N.of_nat (length out)), Nil)
          end
      end
  end.

(** [func save(imgURL, imgDir, maxImgSize, w, r) error].  The deferred
    function runs on the exits where [fp] is not nil: it closes the file
    and removes it, ignoring the result.  The string returned is the public
    reference written to [w], empty when nothing was written. *)
Definition save (imgURL : string) (fs : FS) (imgDir : LimitedDir)
    (maxImgSize : Z) (req : Request)
    : FS * LimitedDir * string * status :=
  match rand_Read req with
  | inr err => (fs, imgDir, "", Error err)
  | inl buf =>
      let name := hex buf +:+ ".png" in
      let p := filepath_Join (Path imgDir) name in
      match os_Create (arrival req) fs p with
      | (fs1, Some err) => (fs1, imgDir, "", Error err)
      | (fs1, None) =>
          let deferred (fs : FS) : FS := (os_Remove fs p).1 in
          match fixImage (arrival req) fs1 p
                  (io_LimitedReader (Body req) maxImgSize) 20
                  (write_fault req) with
          | (fs2, Nil) =>
              match close_fault req with
              | Some err => (deferred fs2, imgDir, "", Error err)
              | None =>
                  (* fp = nil *)
                  match Add fs2 imgDir name with
                  | (fs3, d', Nil) =>
                      match reply_fault req with
                      | Some err => (fs3, d', "", Error err)
                      | None => (fs3, d', imgURL +:+ name, Nil)
                      end
                  | (fs3, d', st) => (fs3, d', "", st)
                  end
              end
          | (fs2, st) => (deferred fs2, imgDir, "", st)
          end
      end
  end.

(** Lines 316-321: the call of [save] and the answer. *)
Definition process (imgURL : string) (maxImgSize : Z) (s : Server)
    (req : Request) : Server * reply :=
  let '(fs', d', public, st) := save imgURL (disk s) (imgDir s) maxImgSize req in
  let s' := mkServer (lastTime s) d' fs' in
  match st with
  | Nil => (s', Saved public)
  | Error err => (s', SaveError err)
  | Panic => (s', Aborted)
  end.

(** The function registered for [/save/]. *)
Definition handler (minDelay : Z) (imgURL : string) (maxImgSize : Z)
    (s : Server) (req : Request) : Server * reply :=
  let now := arrival req in
  match gate minDelay s now with
  | (s', false) => (s', RateLimited)
  | (s', true) => process imgURL maxImgSize s' req
  end.

End pipeline.

(** A stand-in codec for the examples: the stream of one byte [c] is the
    1x1 image of gray level [c], anything else is not a PNG; an image is
    written with one byte per pixel. *)
Definition toy_Decode (r : list Byte.byte) : Img.Image + error :=
  match r with
  | [c] => inl (Img.mkImage (Img.mkRect (Img.Pt 0 0) (Img.Pt 1 1))
                  (λ _ _, Img.Gray (Z.of_N (Byte.to_N c))))
  | _ => inr ErrFormat
  end.

Definition toy_Encode (dst : Img.RGBAImage) : list Byte.byte + error :=
  inl (replicate (Z.to_nat (Img.Dx (Img.RGBARect dst) * Img.Dy (Img.RGBARect dst)))
         Byte.x00).

(** The directory holds the entries [es] and, under [name], a file that
    can be removed. *)
Definition holds_candidate (rt : string) (r : bool) (es : gmap string Node)
    (name : string) (fs : FS) : Prop :=
  ∃ n, pinned n = false ∧ fs = mkFS rt (Dir r (<[name := n]> es)).

(** A request whose body is cut short, against the stand-in codec. *)
Definition req_truncated : Request :=
  {| arrival := 7;
     rand_Read := inl (replicate 16 Byte.xab);
     Body := [Byte.x89; Byte.x50];
     write_fault := None; close_fault := None; reply_fault := None |}.

Definition candidate_name : string := hex (replicate 16 Byte.xab) +:+ ".png".

Definition five_seconds : Z := 5000000000.

Definition s_start : Server := mkServer 0 d_fresh fs_empty.

Definition req_at (t : Z) : Request :=
  {| arrival := t;
     rand_Read := inl (replicate 16 Byte.xab);
     Body := [Byte.x2a];
     write_fault := None; close_fault := None; reply_fault := None |}.

(** ** The rate gate under concurrent requests *)

Module Concurrent.

(** Where a goroutine running the handler stands: the statement it
    executes next, with its local variables [now] and [last]. *)
Inductive pc : Type :=
  | AtNow                       (* line 302: now := time.Now() *)
  | AtLock1 (now : Z)           (* line 303: lastTimeMutex.Lock() *)
  | AtRead (now : Z)            (* line 304: last := lastTime *)
  | AtUnlock1 (now last : Z)    (* line 305: lastTimeMutex.Unlock() *)
  | AtCheck (now last : Z)      (* line 306: if now.Sub(last) < minDelay *)
  | AtLock2 (now : Z)           (* line 312: lastTimeMutex.Lock() *)
  | AtWrite (now : Z)           (* line 313: lastTime = now *)
  | AtUnlock2 (now : Z)         (* line 314: lastTimeMutex.Unlock() *)
  | AtSave (now : Z)            (* line 316: let in, about to call save *)
  | Answered429.                (* lines 307-310: rate limited *)

#[global] Instance pc_eq_dec : EqDecision pc.
Proof. solve_decision. Defined.

(** The variables the goroutines share, and the clock. *)
Record Shared : Type := mkShared {
  clock : Z;
  sharedLastTime : Z;             (* the variable [lastTime] *)
  lastTimeMutex : option nat      (* the goroutine holding the mutex *)
}.

(** One statement of goroutine [g].  [None]: it cannot move, because the
    mutex is taken or because it has finished with the gate. *)
Definition step (minDelay : Z) (g : nat) (sh : Shared) (p : pc)
    : option (Shared * pc) :=
  match p with
  | AtNow => Some (sh, AtLock1 (clock sh))
  | AtLock1 now =>
      match lastTimeMutex sh with
      | None => Some (mkShared (clock sh) (sharedLastTime sh) (Some g), AtRead now)
      | Some _ => None
      end
  | AtRead now => Some (sh, AtUnlock1 now (sharedLastTime sh))
  | AtUnlock1 now last =>
      Some (mkShared (clock sh) (sharedLastTime sh) None, AtCheck now last)
  | AtCheck now last =>
      if time_Sub now last <? minDelay then Some (sh, Answered429)
      else Some (sh, AtLock2 now)
  | AtLock2 now =>
      match lastTimeMutex sh with
      | None => Some (mkShared (clock sh) (sharedLastTime sh) (Some g), AtWrite now)
      | Some _ => None
      end
  | AtWrite now => Some (mkShared (clock sh) now (lastTimeMutex sh), AtUnlock2 now)
  | AtUnlock2 now =>
      Some (mkShared (clock sh) (sharedLastTime sh) None, AtSave now)
  | AtSave _ => None
  | Answered429 => None
  end.

(** What the scheduler and time do. *)
Inductive event : Type :=
  | Run (g : nat)     (* goroutine [g] executes its next statement *)
  | Tick (dt : Z).    (* the clock advances by [dt] nanoseconds *)

Definition exec1 (minDelay : Z) (st : Shared * list pc) (e : event)
    : option (Shared * list pc) :=
  let '(sh, pcs) := st in
  match e with
  | Tick dt =>
      if 0 <=? dt
      then Some (mkShared (clock sh + dt) (sharedLastTime sh) (lastTimeMutex sh), pcs)
      else None
  | Run g =>
      match pcs !! g with
      | None => None
      | Some p =>
          match step minDelay g sh p with
          | None => None
          | Some (sh', p') => Some (sh', <[g := p']> pcs)
          end
      end
  end.

(** A schedule, executed from left to right. *)
Fixpoint exec (minDelay : Z) (st : Shared * list pc) (sched : list event)
    : option (Shared * list pc) :=
  match sched with
  | [] => Some st
  | e :: rest =>
      match exec1 minDelay st e with
      | None => None
      | Some st' => exec minDelay st' rest
      end
  end.

(** Two requests arrive ten seconds after the last accepted one. *)
Definition ten_seconds : Z := 10000000000.
Definition two_arrive : Shared * list pc :=
  (mkShared ten_seconds 0 None, [AtNow; AtNow]).

(** Goroutine 0 passes the gate before goroutine 1 starts. *)
Definition one_after_the_other : list event :=
  replicate 8 (Run 0%nat) ++ replicate 5 (Run 1%nat).

(** Both read [lastTime] before either writes it; the second request
    arrives one nanosecond after the first. *)
Definition interleaved : list event :=
  [Run 0; Tick 1; Run 1;
   Run 0; Run 0; Run 0;
   Run 1; Run 1; Run 1;
   Run 0; Run 1;
   Run 0; Run 0; Run 0;
   Run 1; Run 1; Run 1]%nat.

End Concurrent.


(** ** Further notions: what the operations do to the disk *)

(** The entries of a directory once the files of the entries [fl] have
    been deleted from it. *)
Definition deleted_all (es : gmap string Node) (fl : list File)
    : gmap string Node :=
  foldl (λ m f, delete (Name f) m) es fl.

(** The [File] entry [OpenLimitedDir] makes of a regular file. *)
Definition to_File (e : FileInfo) : File := mkFile (fiName e) (fiSize e).

(** A store of four files, one over the limit of [d_three], and the
    directory holding them. *)
Definition d_ABC : LimitedDir :=
  mkLimitedDir tmpDir 100 3 [mkFile "A" 10; mkFile "B" 20; mkFile "C" 30] 60.

(** The entries of [fs_ABCD]. *)
Definition es_ABCD : gmap string Node :=
  <["A" := mkNode true 10 1 false]>
    (<["B" := mkNode true 20 2 false]>
    (<["C" := mkNode true 30 3 false]>
    (<["D" := mkNode true 40 4 false]> ∅))).

(** The directory [fs_ABCD] with "A" made undeletable. *)
Definition fs_ABCD_pinned : FS :=
  mkFS tmpDir (Dir true (<["A" := mkNode true 10 1 true]>
                          (<["B" := mkNode true 20 2 false]>
                          (<["C" := mkNode true 30 3 false]>
                          (<["D" := mkNode true 40 4 false]> ∅))))).


(** A directory over quota for the limits of the test (5 bytes, 4 files):
    five regular files, the oldest first in the alphabet. *)
Definition es_over : gmap string Node :=
  <["11-1" := mkNode true 1 1 false]>
    (<["12-1" := mkNode true 1 2 false]>
    (<["13-2" := mkNode true 2 3 false]>
    (<["14-1" := mkNode true 1 4 false]>
    (<["15-2" := mkNode true 2 5 false]> ∅)))).
Definition fs_over : FS := mkFS tmpDir (Dir true es_over).

(** The listing [ioutil.ReadDir] starts from, before any sorting. *)
Definition listing (es : gmap string Node) : list FileInfo :=
  map (λ kv, info_of kv.1 kv.2) (map_to_list es).

(** ** Further notions: the pipeline *)

(** The characters of a string, and those [%x] can print. *)
Definition chars (s : string) : list ascii := String.list_ascii_of_string s.
Definition hex_chars : list ascii := chars "0123456789abcdef".

(** The request [req] with another body. *)
Definition with_Body (req : Request) (body : list Byte.byte) : Request :=
  {| arrival := arrival req; rand_Read := rand_Read req; Body := body;
     write_fault := write_fault req; close_fault := close_fault req;
     reply_fault := reply_fault req |}.

Section serving.

Variable png_Decode : list Byte.byte → Img.Image + error.
Variable png_Encode : Img.RGBAImage → list Byte.byte + error.
Variables (minDelay : Z) (imgURL : string) (maxImgSize : Z).

(** The handler run on requests one after the other, as the server does
    when they do not overlap: the final state and the answers in order. *)
Fixpoint serve (s : Server) (reqs : list Request) : Server * list reply :=
  match reqs with
  | [] => (s, [])
  | req :: rest =>
      let '(s1, rp) := handler png_Decode png_Encode minDelay imgURL maxImgSize s req in
      let '(s2, rps) := serve s1 rest in
      (s2, rp :: rps)
  end.

End serving.

(** The arrival times of the requests that were not answered "rate
    limited". *)
Fixpoint let_in (reqs : list Request) (rps : list reply) : list Z :=
  match reqs, rps with
  | req :: reqs', rp :: rps' =>
      match rp with
      | RateLimited => let_in reqs' rps'
      | _ => arrival req :: let_in reqs' rps'
      end
  | _, _ => []
  end.

(** Each time of [ts] is at least [delay] after the one before, the first
    one after [t0]. *)
Fixpoint spaced (delay t0 : Z) (ts : list Z) : Prop :=
  match ts with
  | [] => True
  | t :: ts' => delay ≤ t - t0 ∧ spaced delay t ts'
  end.

(** Three requests at 6, 8 and 12 seconds, the first with a body that is
    not an image. *)
Definition three_requests : list Request :=
  [with_Body (req_at 6000000000) []; req_at 8000000000; req_at 12000000000].


(** ** Further notions: the gate under concurrency *)

(** The goroutine is between a [Lock] and the [Unlock] that follows. *)
Definition in_critical (p : Concurrent.pc) : bool :=
  match p with
  | Concurrent.AtRead _ | Concurrent.AtUnlock1 _ _
  | Concurrent.AtWrite _ | Concurrent.AtUnlock2 _ => true
  | _ => false
  end.

(** The goroutine has left the gate, one way or the other. *)
Definition finished (p : Concurrent.pc) : bool :=
  match p with
  | Concurrent.AtSave _ | Concurrent.Answered429 => true
  | _ => false
  end.

(** The mutex is held by a goroutine that exists, and the goroutines
    inside a critical section are exactly those that hold it. *)
Definition mutex_respected (st : Concurrent.Shared * list Concurrent.pc) : Prop :=
  (∀ g p, st.2 !! g = Some p →
          (in_critical p = true ↔ Concurrent.lastTimeMutex st.1 = Some g)) ∧
  (∀ h, Concurrent.lastTimeMutex st.1 = Some h → is_Some (st.2 !! h)).

(** [n] requests arrive; none has started, the mutex is free. *)
Definition arrivals (now last : Z) (n : nat) : Concurrent.Shared * list Concurrent.pc :=
  (Concurrent.mkShared now last None, replicate n Concurrent.AtNow).

(** ** The earlier server, of gribouillis.go: no store, no gate *)

Module Old.

Section old_pipeline.

Variable png_Decode : list Byte.byte → Img.Image + error.
Variable png_Encode : Img.RGBAImage → list Byte.byte + error.

(** [func save(imgURL, imgDir string, maxImgSize int64, w, r) error]: the
    directory is a path, and the only deferred call is [fp.Close()]. *)
Definition save (imgURL imgDir : string) (fs : FS) (maxImgSize : Z)
    (req : Request) : FS * string * status :=
  match rand_Read req with
  | inr err => (fs, "", Error err)
  | inl buf =>
      let name := hex buf +:+ ".png" in
      let p := filepath_Join imgDir name in
      match os_Create (arrival req) fs p with
      | (fs1, Some err) => (fs1, "", Error err)
      | (fs1, None) =>
          match fixImage png_Decode png_Encode (arrival req) fs1 p
                  (io_LimitedReader (Body req) maxImgSize) 20
                  (write_fault req) with
          | (fs2, Nil) =>
              match close_fault req with
              | Some err => (fs2, "", Error err)
              | None =>
                  match reply_fault req with
                  | Some err => (fs2, "", Error err)
                  | None => (fs2, imgURL +:+ name, Nil)
                  end
              end
          | (fs2, st) => (fs2, "", st)
          end
      end
  end.

(** The function registered for [/save/], lines 120-127. *)
Definition handler (imgURL imgDir : string) (maxImgSize : Z) (fs : FS)
    (req : Request) : FS * reply :=
  match save imgURL imgDir fs maxImgSize req with
  | (fs', public, Nil) => (fs', Saved public)
  | (fs', _, Error err) => (fs', SaveError err)
  | (fs', _, Panic) => (fs', Aborted)
  end.

End old_pipeline.

End Old.

(** ** Further notions: transparency *)

(** The alpha channel [RGBA()] reports is full. *)
Definition opaque (c : Img.Color) : Prop := (Img.Color_RGBA c).2 = 65535.

(** * Facts and claims *)

Lemma wrap64_id z : in_range z → wrap64 z = z.
Proof.
  unfold in_range, min_int, max_int, wrap64. intros H.
  rewrite Z.mod_small; lia.
Qed.

Lemma wrap64_in_range z : in_range (wrap64 z).
Proof.
  unfold in_range, min_int, max_int, wrap64.
  pose proof (Z.mod_pos_bound (z + 2 ^ 63) (2 ^ 64)). lia.
Qed.

(** ** Facts about the eviction loop *)

Section shrink_facts.

Variables (dir : string) (ms mc : Z).

(** One tactic for the case analysis every proof about the loop makes. *)
Ltac loop_cases H :=
  simpl in H;
  match type of H with
  | context [over_quota ?a ?b ?c ?d] =>
      let Q := fresh "Hq" in destruct (over_quota a b c d) eqn:Q
  end;
  [ try match type of H with
        | context [os_Remove ?fs ?p] =>
            let R := fresh "Hrm" in
            destruct (os_Remove fs p) as [? [[]|]] eqn:R; simpl in H
        end
  | ];
  simplify_eq.

Lemma shrink_loop_exit fs sz fl fs' sz' fl' :
  shrink_loop dir ms mc fs sz fl = (fs', (sz', fl'), Nil) →
  over_quota ms mc sz' fl' = false.
Proof.
  revert fs sz. induction fl as [|f rest IH]; intros fs sz H;
    loop_cases H; eauto.
Qed.

(** An invariant of the loop body is an invariant of the loop. *)
Lemma shrink_loop_inv (P : Z → list File → Prop) fs sz fl fs' sz' fl' st :
  (∀ s f rest, P s (f :: rest) → over_quota ms mc s (f :: rest) = true →
     P (wrap64 (s - Size f)) rest ∧ P s rest) →
  P sz fl →
  shrink_loop dir ms mc fs sz fl = (fs', (sz', fl'), st) →
  P sz' fl'.
Proof.
  intros Hstep. revert fs sz.
  induction fl as [|f rest IH]; intros fs sz HP H; loop_cases H;
    try done; destruct (Hstep _ _ _ HP Hq); eauto.
Qed.

(** Eviction only ever drops entries from the front. *)
Lemma shrink_loop_drop fs sz fl fs' sz' fl' st :
  shrink_loop dir ms mc fs sz fl = (fs', (sz', fl'), st) →
  ∃ k, fl' = drop k fl.
Proof.
  intros H.
  apply (shrink_loop_inv (λ _ l, ∃ k, l = drop k fl)) in H; [done| |by exists 0%nat].
  intros s f rest [k Hk] _.
  assert (∃ k', rest = drop k' fl) as Hr.
  { exists (k + 1)%nat. by rewrite <- drop_drop, <- Hk. }
  done.
Qed.

(** With a count limit that is not negative the loop never indexes an
    empty slice. *)
Lemma shrink_loop_no_panic fs sz fl fs' sz' fl' st :
  0 ≤ mc →
  shrink_loop dir ms mc fs sz fl = (fs', (sz', fl'), st) → st ≠ Panic.
Proof.
  intros Hmc. revert fs sz.
  induction fl as [|f rest IH]; intros fs sz H; loop_cases H; eauto; try done.
  unfold over_quota, len in Hq. simpl in Hq.
  apply orb_true_iff in Hq as [Hq|Hq]; [by rewrite andb_false_r in Hq|].
  apply Z.ltb_lt in Hq. simpl in Hq. lia.
Qed.

(** Nothing is evicted from a store within its limits. *)
Lemma shrink_loop_idle fs sz fl :
  over_quota ms mc sz fl = false →
  shrink_loop dir ms mc fs sz fl = (fs, (sz, fl), Nil).
Proof. intros H. destruct fl; simpl; by rewrite H. Qed.

End shrink_facts.

(** ** Facts about [shrink], [Add] and [OpenLimitedDir] *)

Lemma over_quota_false ms mc sz fl :
  over_quota ms mc sz fl = false ↔ (sz ≤ ms ∨ fl = []) ∧ len fl ≤ mc.
Proof.
  unfold over_quota, len.
  rewrite orb_false_iff, andb_false_iff, !Z.ltb_ge.
  destruct fl as [|f fl]; cbn [length]; rewrite ?Nat2Z.inj_succ; split;
    intros [H1 H2]; (split; [|lia]).
  - by right.
  - right. lia.
  - destruct H1 as [H1|H1]; [by left|lia].
  - destruct H1 as [H1|H1]; [by left|done].
Qed.

Lemma shrink_inv fs d fs' d' st :
  shrink fs d = (fs', d', st) →
  ∃ sz fl,
    shrink_loop (path d) (maxSize d) (maxCount d) fs (size d) (files d)
      = (fs', (sz, fl), st) ∧ d' = with_files d sz fl.
Proof.
  unfold shrink.
  destruct (shrink_loop _ _ _ _ _ _) as [[fs1 [sz fl]] st1].
  intros ?; simplify_eq. eauto.
Qed.

Lemma shrink_params fs d fs' d' st :
  shrink fs d = (fs', d', st) →
  path d' = path d ∧ maxSize d' = maxSize d ∧ maxCount d' = maxCount d.
Proof. intros (sz & fl & _ & ->)%shrink_inv. done. Qed.

Lemma shrink_exit fs d fs' d' :
  shrink fs d = (fs', d', Nil) →
  (size d' ≤ maxSize d' ∨ files d' = []) ∧ len (files d') ≤ maxCount d'.
Proof.
  intros (sz & fl & H & ->)%shrink_inv.
  apply shrink_loop_exit in H. by apply over_quota_false in H.
Qed.

Lemma shrink_no_panic fs d fs' d' st :
  0 ≤ maxCount d → shrink fs d = (fs', d', st) → st ≠ Panic.
Proof.
  intros Hmc (sz & fl & H & _)%shrink_inv.
  by eapply shrink_loop_no_panic.
Qed.

Lemma shrink_idle fs d :
  over_quota (maxSize d) (maxCount d) (size d) (files d) = false →
  shrink fs d = (fs, d, Nil).
Proof.
  intros H. unfold shrink. rewrite shrink_loop_idle by done. by destruct d.
Qed.

(** [Add] either fails at the stat, or registers and evicts. *)
Lemma Add_inv fs d name fs' d' st :
  Add fs d name = (fs', d', st) →
  (∃ e, os_Stat fs (filepath_Join (path d) name) = inr e ∧
        fs' = fs ∧ d' = d ∧ st = Error e) ∨
  (∃ info, os_Stat fs (filepath_Join (path d) name) = inl info ∧
        shrink fs (register d name (fiSize info)) = (fs', d', st)).
Proof.
  unfold Add. destruct (os_Stat _ _) as [info|e]; intros H.
  - right. eauto.
  - left. simplify_eq. eauto.
Qed.

Lemma Add_params fs d name fs' d' st :
  Add fs d name = (fs', d', st) →
  path d' = path d ∧ maxSize d' = maxSize d ∧ maxCount d' = maxCount d.
Proof.
  intros [(e & _ & _ & -> & _)|(info & _ & H)]%Add_inv; [done|].
  by apply shrink_params in H.
Qed.

(** [OpenLimitedDir] hands out a store exactly when the initial eviction
    pass returned [nil]. *)
Lemma Open_inv fs dir ms mc fs' d :
  OpenLimitedDir fs dir ms mc = (fs', Some d, Nil) →
  ∃ fs1 entries0 fl total,
    os_MkdirAll fs dir = (fs1, None) ∧
    ioutil_ReadDir fs1 dir = inl entries0 ∧
    scan (sort_Sort sortedFiles_Less entries0) = (fl, total) ∧
    shrink fs1 (mkLimitedDir dir ms mc fl total) = (fs', d, Nil).
Proof.
  unfold OpenLimitedDir.
  destruct (os_MkdirAll fs dir) as [fs1 [e|]] eqn:Hmk; [done|].
  destruct (ioutil_ReadDir fs1 dir) as [entries0|e] eqn:Hrd; [|done].
  destruct (scan _) as [fl total] eqn:Hsc.
  destruct (shrink _ _) as [[fs2 d2] [| |]] eqn:Hs; intros ?; simplify_eq.
  by exists fs1, entries0, fl, total.
Qed.

Lemma settled_reachable d : settled d → reachable d.
Proof.
  destruct 1 as [fs dir ms mc fs' d H|fs d name fs' d' Hr H].
  - by eapply reach_open.
  - by eapply reach_add.
Qed.

(** A store that was handed out has a count limit that is not negative:
    with a negative one the initial eviction pass panics. *)
Lemma reachable_maxCount d : reachable d → 0 ≤ maxCount d.
Proof.
  induction 1 as [fs dir ms mc fs' d H|fs d name fs' d' st _ IH H].
  - apply Open_inv in H as (fs1 & en & fl & total & _ & _ & _ & H).
    apply shrink_exit in H. unfold len in H. lia.
  - apply Add_params in H as (_ & _ & ->). done.
Qed.

(** Hence [Add] on such a store always returns: it never panics. *)
Lemma Add_returns fs d name :
  reachable d → ∃ fs' d' st, Add fs d name = (fs', d', st) ∧ st ≠ Panic.
Proof.
  intros Hr. destruct (Add fs d name) as [[fs' d'] st] eqn:H.
  exists fs', d', st. split; [done|].
  apply Add_inv in H as [(e & _ & _ & _ & ->)|(info & _ & H)]; [done|].
  eapply shrink_no_panic; [|done]. simpl. by apply reachable_maxCount.
Qed.

Lemma settled_quota d :
  settled d → files d = [] ∨ within_quota d.
Proof.
  assert (∀ fs d0 fs', shrink fs d0 = (fs', d, Nil) →
            files d = [] ∨ within_quota d) as Hs.
  { intros fs d0 fs' [[H|H] Hc]%shrink_exit; [right|left]; done. }
  destruct 1 as [fs dir ms mc fs' d H|fs d name fs' d' _ H].
  - apply Open_inv in H as (fs1 & en & fl & total & _ & _ & _ & H). eauto.
  - apply Add_inv in H as [(e & _ & _ & _ & ?)|(info & _ & H)]; [done|eauto].
Qed.

(** *** The running total along runs without overflow *)

Lemma sumSizes_app l1 l2 : sumSizes (l1 ++ l2) = sumSizes l1 + sumSizes l2.
Proof. induction l1 as [|f l1 IH]; simpl; lia. Qed.

Lemma sumSizes_nonneg fl : Forall (λ f, 0 ≤ Size f) fl → 0 ≤ sumSizes fl.
Proof. induction 1; simpl; lia. Qed.

(** The eviction loop keeps the running total above the sum of what is
    tracked, and within [int64]. *)
Lemma shrink_accounted fs d fs' d' st :
  accounted d → shrink fs d = (fs', d', st) → accounted d'.
Proof.
  intros Ha (sz & fl & H & ->)%shrink_inv. unfold accounted. simpl.
  apply (shrink_loop_inv _ _ _
           (λ s l, Forall (λ f, 0 ≤ Size f) l ∧ sumSizes l ≤ s ∧ s ≤ max_int))
    in H; [done| |done].
  intros s f rest (Hnn & Hsum & Hmax) _.
  apply Forall_cons in Hnn as [Hf Hnn]. simpl in Hsum.
  pose proof (sumSizes_nonneg _ Hnn).
  rewrite wrap64_id by (unfold in_range, min_int, max_int in *; lia).
  repeat split; try done; lia.
Qed.

Lemma register_accounted d name sz :
  accounted d → 0 ≤ sz → size d + sz ≤ max_int →
  accounted (register d name sz).
Proof.
  intros (Hnn & Hsum & Hmax) Hsz Hov. unfold accounted, register. simpl.
  pose proof (sumSizes_nonneg _ Hnn).
  rewrite wrap64_id by (unfold in_range, min_int, max_int in *; lia).
  rewrite sumSizes_app. simpl. repeat split; try lia.
  apply Forall_app. split; [done|]. by apply Forall_singleton.
Qed.

(** [Add] keeps it too, provided the addition at line 163 does not
    overflow. *)
Lemma Add_accounted fs d name info fs' d' st :
  accounted d →
  os_Stat fs (filepath_Join (path d) name) = inl info →
  0 ≤ fiSize info → size d + fiSize info ≤ max_int →
  Add fs d name = (fs', d', st) → accounted d'.
Proof.
  intros Ha Hst Hsz Hov H. unfold Add in H. rewrite Hst in H.
  eapply shrink_accounted; [|done]. by apply register_accounted.
Qed.

(** ** The quota invariant *)

(** A file whose size exceeds the byte limit is evicted together with
    everything older, as long as the arithmetic is exact. *)
Lemma Add_oversized fs d name info fs' d' :
  accounted d →
  os_Stat fs (filepath_Join (path d) name) = inl info →
  0 ≤ fiSize info →
  maxSize d < fiSize info →
  size d + fiSize info ≤ max_int →
  Add fs d name = (fs', d', Nil) →
  files d' = [].
Proof.
  intros Ha Hst Hnn Hbig Hov H. unfold Add in H. rewrite Hst in H.
  pose proof (register_accounted d name _ Ha Hnn Hov) as Hreg.
  set (new := {| Name := name; Size := fiSize info |}) in *.
  apply shrink_inv in H as (sz & fl & H & ->). simpl in *.
  pose proof (shrink_loop_exit _ _ _ _ _ _ _ _ _ H) as Hq.
  apply over_quota_false in Hq as [[Hq|Hq] _]; [|done].
  apply (shrink_loop_inv _ _ _
           (λ s l, l = [] ∨
                   (last l = Some new ∧ Forall (λ f, 0 ≤ Size f) l ∧
                    sumSizes l ≤ s ∧ s ≤ max_int))) in H.
  - destruct H as [->|(Hl & Hall & Hsum & _)]; [done|]. exfalso.
    destruct fl as [|f fl _] using rev_ind; [done|].
    rewrite last_snoc in Hl. simplify_eq.
    rewrite sumSizes_app in Hsum. simpl in Hsum.
    apply Forall_app in Hall as [Hall _].
    pose proof (sumSizes_nonneg _ Hall). lia.
  - intros s f rest [?|(Hl & Hall & Hsum & Hmax)] _; [done|].
    apply Forall_cons in Hall as [Hf Hall]. simpl in Hsum.
    pose proof (sumSizes_nonneg _ Hall).
    rewrite wrap64_id by (unfold in_range, min_int, max_int in *; lia).
    destruct rest as [|g rest]; [by split; left|].
    split; right; (split; [done|]); repeat split; try done; lia.
  - right. destruct Hreg as (Hall & Hsum & Hmax).
    unfold register in *. simpl in *. by rewrite last_snoc.
Qed.

Lemma os_Stat_nonneg fs p info : os_Stat fs p = inl info → 0 ≤ fiSize info.
Proof.
  unfold os_Stat, dir_block. intros H.
  repeat (case_match; simplify_eq); simpl; lia.
Qed.

Lemma open_fresh : OpenLimitedDir fs_empty tmpDir 5 4 = (fs_empty, Some d_fresh, Nil).
Proof. vm_compute. reflexivity. Qed.

Lemma add_five : Add fs_five d_fresh "9-5" = (fs_five, d_five, Nil).
Proof. vm_compute. reflexivity. Qed.

Lemma settled_fresh : settled d_fresh.
Proof. eapply settled_open, open_fresh. Qed.

Lemma settled_five : settled d_five.
Proof.
  eapply settled_add; [|apply add_five].
  apply settled_reachable, settled_fresh.
Qed.

Lemma accounted_five : accounted d_five.
Proof.
  unfold accounted, d_five, max_int. simpl. repeat split; try lia.
  apply Forall_singleton. simpl. lia.
Qed.

(** The expectations of the repository's test hold of the model, step by
    step, up to the store reopened over a directory that is over quota. *)
Example TestLimitedDir_replayed :
  let w1 := replay (fs_empty, d_fresh) test_maxcount in
  let w2 := replay w1 [("5-2", 2%N)] in
  let w3 := replay w2 [("6-2", 2%N)] in
  let w4 := replay w3 [("7-3", 3%N)] in
  let w5 := replay w4 [("8-4", 4%N)] in
  let w6 := replay w5 [("9-5", 5%N)] in
  let w7 := replay w6 [("10-6", 6%N)] in
  let disk := foldl (λ fs x, writeFile 9 fs tmpDir x.1 x.2) w7.1 test_reopen in
  List w1.2 = ["1-1"; "2-1"; "3-1"; "4-1"] ∧
  List w2.2 = ["2-1"; "3-1"; "4-1"; "5-2"] ∧
  List w3.2 = ["4-1"; "5-2"; "6-2"] ∧
  List w4.2 = ["6-2"; "7-3"] ∧
  List w5.2 = ["8-4"] ∧
  List w6.2 = ["9-5"] ∧
  List w7.2 = [] ∧
  List <$> (OpenLimitedDir disk tmpDir 5 4).1.2 = Some ["13-2"; "14-1"; "15-2"].
Proof. vm_compute. repeat split. Qed.

Lemma open_wide :
  OpenLimitedDir fs_small tmpDir (max_int - 1) 4 = (fs_small, Some d_wide, Nil).
Proof. vm_compute. reflexivity. Qed.

Lemma add_huge : Add fs_huge d_wide "b" = (fs_huge, d_wrapped, Nil).
Proof. vm_compute. reflexivity. Qed.

(** C1, as stated, fails twice.  A freshly opened empty store is empty and
    within both limits at once, so not exactly one alternative holds.  And
    when the running total wraps around, a file larger than the byte limit
    stays tracked: here 5 + (2^63 - 1) wraps to a negative total. *)
Lemma quota_claim_as_stated_fails :
  ¬ (∀ d, settled d → exactly_one (files d = []) (within_quota d)) ∧
  ¬ (∀ d fs name info fs' d',
       settled d →
       os_Stat fs (filepath_Join (path d) name) = inl info →
       maxSize d < fiSize info →
       Add fs d name = (fs', d', Nil) → files d' = []).
Proof.
  split.
  - intros H. destruct (H d_fresh settled_fresh) as [[_ Hn]|[Hn _]].
    + apply Hn. unfold within_quota, len. simpl. lia.
    + by apply Hn.
  - intros H.
    assert (settled d_wide) as Hs by (eapply settled_open, open_wide).
    specialize (H d_wide fs_huge "b" (mkFileInfo "b" (Z.of_N huge) true 1)
                  fs_huge d_wrapped Hs).
    discriminate H; [by vm_compute|by vm_compute|apply add_huge].
Qed.

(** C1 (amended).  After [OpenLimitedDir] handed out a store and after
    every [Add] that returned [nil], the tracked sequence is empty or the
    store is within both limits (at least one of the two; both may hold).
    In particular, when the running total covers the tracked sizes and
    adding the new size does not overflow [int64], an [Add] of a file
    larger than [maxSize] that returns [nil] leaves nothing tracked. *)
Theorem quota_after_open_and_add d :
  settled d →
  (files d = [] ∨ within_quota d) ∧
  (∀ fs name info fs' d',
     accounted d →
     os_Stat fs (filepath_Join (path d) name) = inl info →
     maxSize d < fiSize info →
     size d + fiSize info ≤ max_int →
     Add fs d name = (fs', d', Nil) →
     files d' = []).
Proof.
  intros Hs. split; [by apply settled_quota|].
  intros fs name info fs' d' Ha Hst Hbig Hov H.
  eapply Add_oversized; eauto using os_Stat_nonneg.
Qed.

Lemma quota_after_open_and_add_witness :
  (files d_five = [] ∨ within_quota d_five) ∧
  files (Add fs_six d_five "10-6").1.2 = [].
Proof.
  destruct (quota_after_open_and_add d_five settled_five) as [H1 H2].
  split; [exact H1|].
  eapply (H2 fs_six "10-6" (mkFileInfo "10-6" 6 true 1)).
  - exact accounted_five.
  - vm_compute. reflexivity.
  - simpl. lia.
  - unfold max_int. simpl. lia.
  - vm_compute. reflexivity.
Defined.

Lemma add_a : Add fs_a d_fresh "a" = (fs_a, d_a, Nil).
Proof. vm_compute. reflexivity. Qed.

Lemma add_b_after_loss : Add fs_b d_a "b" = (fs_empty, d_drift, Nil).
Proof. vm_compute. reflexivity. Qed.

Lemma settled_a : settled d_a.
Proof.
  eapply settled_add; [|apply add_a].
  apply settled_reachable, settled_fresh.
Qed.

Lemma settled_drift : settled d_drift.
Proof.
  eapply settled_add; [|apply add_b_after_loss].
  apply settled_reachable, settled_a.
Qed.

(** C2, evaluated where it fails.  The store tracks "a" (3 bytes, limit 5);
    "a" disappears from disk; "b" (3 bytes) is added.  The loop drops the
    entry of "a" without subtracting its size, because [os.Remove] reported
    that the file does not exist, then evicts "b" as well: the store ends
    with nothing tracked and a running total of 3.  From then on every
    3-byte file is deleted as soon as it is added. *)
Theorem total_drifts_past_absent_file :
  settled d_drift ∧
  files d_drift = [] ∧ size d_drift = 3 ∧ sumSizes (files d_drift) = 0 ∧
  Add fs_c d_drift "c" = (fs_empty, d_drift, Nil).
Proof.
  split; [apply settled_drift|].
  do 3 (split; [reflexivity|]).
  vm_compute. reflexivity.
Qed.

(** ** Registration *)

Lemma strip_prefix_app a b c :
  strip_prefix (a +:+ b) (a +:+ c) = strip_prefix b c.
Proof. induction a as [|x a IH]; simpl; [done|]. by rewrite decide_True. Qed.

Lemma append_neq_self a b : b ≠ "" → a +:+ b ≠ a.
Proof.
  intros Hb H. apply Hb.
  assert (String.length (a +:+ b) = String.length a) as Hl by (by rewrite H).
  clear H. induction a as [|x a IH]; simpl in Hl.
  - by destruct b.
  - apply IH. lia.
Qed.

(** A non-empty name joined to the managed directory is its entry of that
    name. *)
Lemma locate_Join fs name :
  name ≠ "" → locate fs (filepath_Join (root fs) name) = Entry name.
Proof.
  intros Hn. unfold filepath_Join.
  rewrite (decide_False (P := name = "")) by done.
  unfold locate.
  rewrite decide_False by (by apply append_neq_self).
  by rewrite strip_prefix_app.
Qed.

Lemma os_Stat_entry fs r es name :
  state fs = Dir r es → name ≠ "" →
  os_Stat fs (filepath_Join (root fs) name) =
    match es !! name with
    | Some n => inl (info_of name n)
    | None => inr ENOENT
    end.
Proof. intros Hs Hn. unfold os_Stat. by rewrite Hs, locate_Join. Qed.

(** While the tracked files are distinct and still on disk, the eviction
    loop keeps the running total equal to the sum of the tracked sizes:
    every removal either succeeds, and the size is subtracted, or fails for
    good, and nothing changes. *)
Lemma shrink_loop_exact ms mc fl : ∀ fs r es sz fs' sz' fl' st,
  state fs = Dir r es → on_disk es fl →
  Forall (λ f, 0 ≤ Size f) fl →
  sz = sumSizes fl → sz ≤ max_int →
  shrink_loop (root fs) ms mc fs sz fl = (fs', (sz', fl'), st) →
  sz' = sumSizes fl'.
Proof.
  induction fl as [|f rest IH];
    intros fs r es sz fs' sz' fl' st Hs [Hnd Hon] Hnn Hsz Hmax H; simpl in H.
  - destruct (over_quota ms mc sz []); by simplify_eq.
  - destruct (over_quota ms mc sz (f :: rest)); [|by simplify_eq].
    apply Forall_cons in Hon as [[Hne [n Hn]] Hon].
    apply Forall_cons in Hnn as [Hf Hnn].
    simpl in Hnd. apply NoDup_cons in Hnd as [Hnotin Hnd].
    pose proof (sumSizes_nonneg _ Hnn) as Hrest. simpl in Hsz.
    unfold os_Remove in H. rewrite Hs, (locate_Join fs _ Hne), Hn in H.
    destruct (pinned n); simpl in H; [by simplify_eq|].
    eapply (IH (mkFS (root fs) (Dir r (delete (Name f) es)))) in H; try done.
    + split; [done|]. apply Forall_forall. intros g Hg.
      rewrite Forall_forall in Hon. destruct (Hon g Hg) as [Hgn Hgs].
      split; [done|]. rewrite lookup_delete_ne; [done|].
      intros Heq. apply Hnotin. rewrite Heq. apply list_elem_of_fmap. eauto.
    + rewrite wrap64_id by (unfold in_range, min_int, max_int in *; lia). lia.
    + rewrite wrap64_id by (unfold in_range, min_int, max_int in *; lia). lia.
Qed.

Lemma Add_within fs d name info :
  os_Stat fs (filepath_Join (path d) name) = inl info →
  over_quota (maxSize d) (maxCount d)
    (wrap64 (size d + fiSize info))
    (files d ++ [mkFile name (fiSize info)]) = false →
  Add fs d name = (fs, register d name (fiSize info), Nil).
Proof. intros Hst Hq. unfold Add. rewrite Hst. by apply shrink_idle. Qed.

(** C9.  [Add] takes the size from a stat of [path/name].  When the stat
    fails the error is returned and neither the store nor the directory
    changed; a file missing from the managed directory makes it fail with
    an error [os.IsNotExist] recognises.  When it succeeds, the size
    registered is the one on disk. *)
Theorem Add_stat_failure_changes_nothing fs d name :
  (∀ e, os_Stat fs (filepath_Join (path d) name) = inr e →
        Add fs d name = (fs, d, Error e)) ∧
  (∀ r es, state fs = Dir r es → root fs = path d → name ≠ "" →
        es !! name = None →
        Add fs d name = (fs, d, Error ENOENT) ∧ os_IsNotExist ENOENT = true) ∧
  (∀ r es n, state fs = Dir r es → root fs = path d → name ≠ "" →
        es !! name = Some n →
        Add fs d name = shrink fs (register d name (Z.of_N (nodeSize n)))).
Proof.
  split; [|split].
  - intros e He. unfold Add. by rewrite He.
  - intros r es Hs Hr Hn Hl. split; [|done].
    unfold Add. rewrite <- Hr, (os_Stat_entry _ _ _ _ Hs Hn), Hl. done.
  - intros r es n Hs Hr Hn Hl.
    unfold Add. rewrite <- Hr, (os_Stat_entry _ _ _ _ Hs Hn), Hl. done.
Qed.

Lemma Add_stat_failure_changes_nothing_witness :
  Add fs_empty d_five "gone.png" = (fs_empty, d_five, Error ENOENT) ∧
  Add fs_five d_fresh "9-5" = shrink fs_five (register d_fresh "9-5" 5).
Proof.
  destruct (Add_stat_failure_changes_nothing fs_empty d_five "gone.png")
    as (H1 & H2 & _).
  destruct (Add_stat_failure_changes_nothing fs_five d_fresh "9-5")
    as (_ & _ & H3).
  split.
  - apply H1. vm_compute. reflexivity.
  - apply (H3 true {["9-5" := mkNode true 5 0 false]}
             (mkNode true 5 0 false)); vm_compute; congruence.
Defined.

Lemma List_names d : List d = map Name (files d).
Proof.
  unfold List.
  assert (∀ l acc, foldl (λ names f, names ++ [Name f]) acc l
                   = acc ++ map Name l) as H.
  { induction l as [|f l IH]; intros acc; simpl.
    - by rewrite app_nil_r.
    - by rewrite IH, <- app_assoc. }
  apply H.
Qed.

Lemma tracked_times_pos name d : name ∈ List d → (0 < tracked_times name d)%nat.
Proof.
  rewrite List_names. intros (f & -> & Hf)%list_elem_of_fmap.
  unfold tracked_times.
  assert (f ∈ filter (λ g, Name g = Name f) (files d)) as Hin
    by (by apply list_elem_of_filter).
  destruct (filter _ _); [by apply elem_of_nil in Hin|simpl; lia].
Qed.

(** C10.  Adding a name that is already tracked appends a second entry
    with the size just read from disk and adds that size to the running
    total once more; nothing is replaced or merged.  When the doubled
    account still fits the limits the store then tracks the name one more
    time than before, at least twice, for the one file on disk. *)
Theorem Add_tracked_name_counts_again fs d name info :
  name ∈ List d →
  os_Stat fs (filepath_Join (path d) name) = inl info →
  let d1 := register d name (fiSize info) in
  files d1 = files d ++ [mkFile name (fiSize info)] ∧
  size d1 = wrap64 (size d + fiSize info) ∧
  Add fs d name = shrink fs d1 ∧
  (over_quota (maxSize d) (maxCount d) (size d1) (files d1) = false →
     Add fs d name = (fs, d1, Nil) ∧
     tracked_times name d1 = S (tracked_times name d) ∧
     (2 ≤ tracked_times name d1)%nat).
Proof.
  intros Hin Hst d1. repeat split.
  - unfold Add. by rewrite Hst.
  - by apply Add_within.
  - unfold tracked_times, d1, register. simpl.
    rewrite filter_app, length_app, filter_cons_True, filter_nil by done.
    simpl. lia.
  - apply tracked_times_pos in Hin.
    unfold tracked_times, d1, register in *. simpl.
    rewrite filter_app, length_app, filter_cons_True, filter_nil by done.
    simpl. lia.
Qed.

Lemma Add_tracked_name_counts_again_witness :
  Add fs_a d_roomy "a"
    = (fs_a, mkLimitedDir tmpDir 10 4 [mkFile "a" 3; mkFile "a" 3] 6, Nil) ∧
  tracked_times "a" (register d_roomy "a" 3) = 2%nat.
Proof.
  assert ("a" ∈ List d_roomy) as Hin by (vm_compute; apply list_elem_of_here).
  assert (os_Stat fs_a (filepath_Join (path d_roomy) "a")
          = inl (mkFileInfo "a" 3 true 0)) as Hst by (vm_compute; reflexivity).
  destruct (Add_tracked_name_counts_again fs_a d_roomy "a" _ Hin Hst)
    as (_ & _ & _ & H).
  destruct H as (H1 & H2 & _); [vm_compute; reflexivity|].
  split; [exact H1|exact H2].
Defined.

(** With the limits of the test the doubled account is over quota, and the
    eviction it triggers deletes the one file behind both entries: "a"
    stays tracked but is gone from disk. *)
Example Add_twice_evicts_the_file :
  Add fs_a d_a "a" = (fs_empty, d_a, Nil).
Proof. vm_compute. reflexivity. Qed.

(** ** First in, first out *)

Lemma shrink_drop fs d fs' d' st :
  shrink fs d = (fs', d', st) → ∃ k, files d' = drop k (files d).
Proof.
  intros (sz & fl & H & ->)%shrink_inv. simpl.
  by eapply shrink_loop_drop.
Qed.

(** Evicting exactly the head: the store is one entry over the count
    limit and has room in bytes either way the removal goes. *)
Lemma shrink_one fs d f rest fs' d' :
  files d = f :: rest →
  len rest = maxCount d →
  size d ≤ maxSize d → 0 ≤ Size f → Size f ≤ size d → size d ≤ max_int →
  shrink fs d = (fs', d', Nil) →
  files d' = rest.
Proof.
  intros Hf Hlen Hsz Hnn Hle Hmax (sz & fl & H & ->)%shrink_inv. simpl.
  rewrite Hf in H. simpl in H.
  assert (over_quota (maxSize d) (maxCount d) (size d) (f :: rest) = true) as Hq.
  { unfold over_quota. apply orb_true_iff. right. apply Z.ltb_lt.
    unfold len in *. simpl length. lia. }
  assert (∀ s, s ≤ maxSize d →
               over_quota (maxSize d) (maxCount d) s rest = false) as Hidle.
  { intros s Hs. apply over_quota_false. split; [by left|lia]. }
  rewrite Hq in H.
  destruct (os_Remove fs _) as [fs1 [e|]].
  - destruct (negb (os_IsNotExist e)); [done|].
    rewrite shrink_loop_idle in H by (by apply Hidle). by simplify_eq.
  - rewrite shrink_loop_idle in H; [by simplify_eq|].
    apply Hidle. rewrite wrap64_id; [lia|].
    unfold in_range, min_int, max_int in *. lia.
Qed.

Lemma register_files d name sz :
  files (register d name sz) = files d ++ [mkFile name sz].
Proof. done. Qed.

Lemma register_fits d name sz :
  0 ≤ size d → 0 ≤ sz → size d + sz ≤ maxSize d → maxSize d ≤ max_int →
  len (files d) < maxCount d →
  size (register d name sz) = size d + sz ∧
  over_quota (maxSize d) (maxCount d)
    (wrap64 (size d + sz)) (files d ++ [mkFile name sz]) = false.
Proof.
  intros Hs Hsz Hsum Hms Hlen. simpl.
  rewrite wrap64_id by (unfold in_range, min_int, max_int in *; lia).
  split; [done|]. apply over_quota_false. split; [by left|].
  unfold len in *. rewrite length_app. simpl. lia.
Qed.

(** C3.  The store is a queue.  [Add] puts the new entry behind everything
    tracked and eviction only takes entries from the front, so what is
    tracked after an [Add] that passed the stat is the old sequence plus
    the new entry, less some prefix; [List] gives the names in that order.
    With [maxCount = 3], nothing tracked and a byte limit that the four
    files fit in together, four successful [Add]s of A, B, C, D (through
    any intermediate states of the directory) leave exactly B, C, D. *)
Theorem fifo_order :
  (∀ fs d name fs' d' st,
     Add fs d name = (fs', d', st) →
     (∃ e, os_Stat fs (filepath_Join (path d) name) = inr e ∧
           st = Error e ∧ d' = d) ∨
     (∃ info k, os_Stat fs (filepath_Join (path d) name) = inl info ∧
           files d' = drop k (files d ++ [mkFile name (fiSize info)]))) ∧
  (∀ d, List d = map Name (files d)) ∧
  (∀ d0 A B C D iA iB iC iD fsA fsB fsC fsD fsA' fsB' fsC' fsD' d1 d2 d3 d4,
     files d0 = [] → maxCount d0 = 3 →
     0 ≤ size d0 → maxSize d0 ≤ max_int →
     os_Stat fsA (filepath_Join (path d0) A) = inl iA →
     os_Stat fsB (filepath_Join (path d0) B) = inl iB →
     os_Stat fsC (filepath_Join (path d0) C) = inl iC →
     os_Stat fsD (filepath_Join (path d0) D) = inl iD →
     size d0 + fiSize iA + fiSize iB + fiSize iC + fiSize iD ≤ maxSize d0 →
     Add fsA d0 A = (fsA', d1, Nil) →
     Add fsB d1 B = (fsB', d2, Nil) →
     Add fsC d2 C = (fsC', d3, Nil) →
     Add fsD d3 D = (fsD', d4, Nil) →
     files d4 = [mkFile B (fiSize iB); mkFile C (fiSize iC); mkFile D (fiSize iD)] ∧
     List d4 = [B; C; D]).
Proof.
  split; [|split].
  - intros fs d name fs' d' st
      [(e & He & -> & -> & ->)|(info & Hst & H)]%Add_inv.
    + left. eauto.
    + right. apply shrink_drop in H as [k Hk]. eauto.
  - apply List_names.
  - intros d0 A B C D iA iB iC iD fsA fsB fsC fsD fsA' fsB' fsC' fsD'
      d1 d2 d3 d4 Hf Hmc Hs0 Hms HA HB HC HD Hsum H1 H2 H3 H4.
    pose proof (os_Stat_nonneg _ _ _ HA).
    pose proof (os_Stat_nonneg _ _ _ HB).
    pose proof (os_Stat_nonneg _ _ _ HC).
    pose proof (os_Stat_nonneg _ _ _ HD).
    (* the first three stay within the limits *)
    destruct (register_fits d0 A (fiSize iA)) as [Hz1 Hq1]; try lia.
    { rewrite Hf, Hmc. unfold len. simpl. lia. }
    rewrite (Add_within _ _ _ _ HA Hq1) in H1. simplify_eq.
    set (d1 := register d0 A (fiSize iA)) in *.
    assert (files d1 = [mkFile A (fiSize iA)]) as Hf1
      by (unfold d1; by rewrite register_files, Hf).
    destruct (register_fits d1 B (fiSize iB)) as [Hz2 Hq2];
      try (simpl maxSize; lia).
    { rewrite Hf1. simpl maxCount. rewrite Hmc. unfold len. simpl. lia. }
    rewrite (Add_within _ d1 _ _ HB Hq2) in H2. simplify_eq.
    set (d2 := register d1 B (fiSize iB)) in *.
    assert (files d2 = [mkFile A (fiSize iA); mkFile B (fiSize iB)]) as Hf2
      by (unfold d2; by rewrite register_files, Hf1).
    destruct (register_fits d2 C (fiSize iC)) as [Hz3 Hq3];
      try (simpl maxSize; lia).
    { rewrite Hf2. simpl maxCount. rewrite Hmc. unfold len. simpl. lia. }
    rewrite (Add_within _ d2 _ _ HC Hq3) in H3. simplify_eq.
    set (d3 := register d2 C (fiSize iC)) in *.
    assert (files d3 = [mkFile A (fiSize iA); mkFile B (fiSize iB);
                        mkFile C (fiSize iC)]) as Hf3
      by (unfold d3; by rewrite register_files, Hf2).
    (* the fourth is one too many: the head goes *)
    unfold Add in H4. change (path d3) with (path d0) in H4.
    rewrite HD in H4.
    assert (size (register d3 D (fiSize iD))
            = size d0 + fiSize iA + fiSize iB + fiSize iC + fiSize iD) as Hz4.
    { change (size (register d3 D (fiSize iD)))
        with (wrap64 (size d3 + fiSize iD)).
      rewrite Hz3, Hz2, Hz1.
      apply wrap64_id. unfold in_range, min_int, max_int in *. lia. }
    apply (shrink_one _ _ (mkFile A (fiSize iA))
             [mkFile B (fiSize iB); mkFile C (fiSize iC); mkFile D (fiSize iD)])
      in H4.
    + split; [done|]. by rewrite List_names, H4.
    + by rewrite register_files, Hf3.
    + simpl maxCount. by rewrite Hmc.
    + rewrite Hz4. simpl maxSize. lia.
    + simpl. lia.
    + rewrite Hz4. simpl Size. lia.
    + rewrite Hz4. lia.
Qed.

Lemma fifo_order_witness :
  let d1 := (Add fs_A d_three "A").1.2 in
  let d2 := (Add fs_AB d1 "B").1.2 in
  let d3 := (Add fs_ABC d2 "C").1.2 in
  let d4 := (Add fs_ABCD d3 "D").1.2 in
  files d4 = [mkFile "B" 20; mkFile "C" 30; mkFile "D" 40] ∧
  List d4 = ["B"; "C"; "D"].
Proof.
  intros d1 d2 d3 d4.
  destruct fifo_order as (_ & _ & H).
  apply (H d_three "A" "B" "C" "D"
           (mkFileInfo "A" 10 true 1) (mkFileInfo "B" 20 true 2)
           (mkFileInfo "C" 30 true 3) (mkFileInfo "D" 40 true 4)
           fs_A fs_AB fs_ABC fs_ABCD
           (Add fs_A d_three "A").1.1 (Add fs_AB d1 "B").1.1
           (Add fs_ABC d2 "C").1.1 (Add fs_ABCD d3 "D").1.1
           d1 d2 d3 d4);
    try (vm_compute; reflexivity); try (vm_compute; congruence).
Defined.

(** ** Loading the directory *)

Lemma scan_entries_spec entries : ∀ pre total,
  scan_entries (length pre) entries
    (pre ++ replicate (length entries) zero_File) total
  = (pre ++ map slot entries, foldl add_size total entries).
Proof.
  induction entries as [|e rest IH]; intros pre total; simpl; [done|].
  unfold slot at 1, add_size at 2.
  destruct (fiRegular e); simpl.
  - rewrite <- (Nat.add_0_r (length pre)) at 2.
    rewrite insert_app_r. simpl.
    specialize (IH (pre ++ [mkFile (fiName e) (fiSize e)])
                  (wrap64 (total + fiSize e))).
    rewrite length_app, <- !app_assoc in IH. simpl in IH.
    by rewrite Nat.add_1_r in IH.
  - specialize (IH (pre ++ [zero_File]) total).
    rewrite length_app, <- !app_assoc in IH. simpl in IH.
    by rewrite Nat.add_1_r in IH.
Qed.

(** Every entry gets a slot, regular or not. *)
Lemma scan_spec entries :
  scan entries = (map slot entries, foldl add_size 0 entries).
Proof. apply (scan_entries_spec entries [] 0). Qed.

Lemma sortedFiles_Less_lt a b :
  sortedFiles_Less a b = true ↔ fiModTime a < fiModTime b.
Proof.
  unfold sortedFiles_Less, time_After.
  rewrite andb_true_iff, negb_true_iff, Z.eqb_neq, Z.ltb_lt. lia.
Qed.

Lemma insert_by_Permutation {A} (less : A → A → bool) x l :
  insert_by less x l ≡ₚ x :: l.
Proof.
  induction l as [|y l IH]; simpl; [done|].
  destruct (less x y); [done|]. by rewrite IH, Permutation_swap.
Qed.

Lemma sort_Sort_Permutation {A} (less : A → A → bool) l :
  sort_Sort less l ≡ₚ l.
Proof.
  unfold sort_Sort.
  assert (∀ acc, foldl (λ acc x, insert_by less x acc) acc l ≡ₚ acc ++ l) as H.
  { induction l as [|x l IH]; intros acc; simpl.
    - by rewrite app_nil_r.
    - rewrite IH, insert_by_Permutation. simpl. apply Permutation_middle. }
  apply (H []).
Qed.

Lemma insert_by_HdRel a x l :
  by_mtime a x → HdRel by_mtime a l →
  HdRel by_mtime a (insert_by sortedFiles_Less x l).
Proof.
  intros Hax Hal. destruct Hal as [|y l Hay]; simpl.
  - by constructor.
  - destruct (sortedFiles_Less x y); by constructor.
Qed.

Lemma insert_by_Sorted x l :
  Sorted by_mtime l → Sorted by_mtime (insert_by sortedFiles_Less x l).
Proof.
  induction 1 as [|y l Hl IH Hy]; simpl.
  - by repeat constructor.
  - destruct (sortedFiles_Less x y) eqn:E.
    + apply sortedFiles_Less_lt in E.
      repeat constructor; try done. unfold by_mtime. lia.
    + constructor; [done|]. apply insert_by_HdRel; [|done].
      apply not_true_iff_false in E. rewrite sortedFiles_Less_lt in E.
      unfold by_mtime. lia.
Qed.

(** [sort.Sort(sortedFiles(entries))] orders by modification time. *)
Lemma sort_Sort_by_mtime l : Sorted by_mtime (sort_Sort sortedFiles_Less l).
Proof.
  unfold sort_Sort.
  assert (∀ acc, Sorted by_mtime acc →
            Sorted by_mtime (foldl (λ acc x, insert_by sortedFiles_Less x acc) acc l))
    as H.
  { induction l as [|x l IH]; intros acc Hacc; simpl; [done|].
    by apply IH, insert_by_Sorted. }
  apply H. constructor.
Qed.

Lemma foldl_add_size_exact entries : ∀ total,
  Forall (λ e, 0 ≤ fiSize e) entries →
  0 ≤ total →
  total + sumSizes (map slot entries) ≤ max_int →
  foldl add_size total entries = total + sumSizes (map slot entries).
Proof.
  induction entries as [|e rest IH]; intros total Hnn Ht Hmax; simpl; [lia|].
  apply Forall_cons in Hnn as [He Hnn]. simpl in Hmax.
  assert (0 ≤ sumSizes (map slot rest)) as Hrest.
  { apply sumSizes_nonneg, Forall_fmap. eapply Forall_impl; [done|].
    intros f Hf. unfold compose, slot. simpl in *.
    destruct (fiRegular f); simpl; lia. }
  assert (Size (slot e) = if fiRegular e then fiSize e else 0) as Hslot
    by (unfold slot; by destruct (fiRegular e)).
  unfold add_size at 2. rewrite Hslot in *. destruct (fiRegular e).
  - rewrite wrap64_id by (unfold in_range, min_int, max_int in *; lia).
    rewrite IH; try done; lia.
  - rewrite IH; try done; lia.
Qed.

(** When every entry of the directory is a regular file, the tracked
    sequence before the first eviction pass is those files in ascending
    order of modification time, and the total is the sum of their sizes
    (as long as that sum fits an [int64]). *)
Lemma open_all_regular entries0 fl total :
  Forall (λ e, fiRegular e = true) entries0 →
  Forall (λ e, 0 ≤ fiSize e) entries0 →
  scan (sort_Sort sortedFiles_Less entries0) = (fl, total) →
  ∃ sorted,
    sorted ≡ₚ entries0 ∧ Sorted by_mtime sorted ∧
    fl = map (λ e, mkFile (fiName e) (fiSize e)) sorted ∧
    (sumSizes fl ≤ max_int → total = sumSizes fl).
Proof.
  intros Hreg Hnn. rewrite scan_spec. intros ?; simplify_eq.
  set (sorted := sort_Sort sortedFiles_Less entries0).
  assert (sorted ≡ₚ entries0) as Hp by apply sort_Sort_Permutation.
  exists sorted. split; [done|]. split; [apply sort_Sort_by_mtime|].
  rewrite <- Hp in Hreg, Hnn.
  assert (map slot sorted = map (λ e, mkFile (fiName e) (fiSize e)) sorted) as Hs.
  { apply map_ext_Forall. eapply Forall_impl; [exact Hreg|].
    intros e He. unfold slot. by rewrite He. }
  split; [done|]. intros Hmax.
  rewrite foldl_add_size_exact; try done; lia.
Qed.

Lemma sumSizes_Permutation l1 l2 : l1 ≡ₚ l2 → sumSizes l1 = sumSizes l2.
Proof. induction 1; simpl; lia. Qed.

Lemma slot_nonneg entries :
  Forall (λ e, 0 ≤ fiSize e) entries →
  Forall (λ f, 0 ≤ Size f) (map slot entries).
Proof.
  intros H. apply Forall_fmap. eapply Forall_impl; [exact H|].
  intros e He. unfold compose, slot. simpl in *.
  destruct (fiRegular e); simpl; lia.
Qed.

Lemma ioutil_ReadDir_nonneg fs dir entries :
  ioutil_ReadDir fs dir = inl entries → Forall (λ e, 0 ≤ fiSize e) entries.
Proof.
  unfold ioutil_ReadDir. intros H.
  repeat (case_match; simplify_eq).
  rewrite sort_Sort_Permutation. apply Forall_fmap, Forall_forall.
  intros [k n] _. simpl. lia.
Qed.

(** The store [OpenLimitedDir] hands out is accounted for, provided the
    sizes found in the directory add up within [int64]. *)
Lemma Open_accounted fs dir ms mc fs' d :
  OpenLimitedDir fs dir ms mc = (fs', Some d, Nil) →
  (∀ fs1 entries0,
     os_MkdirAll fs dir = (fs1, None) →
     ioutil_ReadDir fs1 dir = inl entries0 →
     sumSizes (map slot entries0) ≤ max_int) →
  accounted d.
Proof.
  intros (fs1 & entries0 & fl & total & Hmk & Hrd & Hsc & Hsh)%Open_inv Hsum.
  specialize (Hsum _ _ Hmk Hrd).
  apply ioutil_ReadDir_nonneg in Hrd.
  rewrite scan_spec in Hsc. simplify_eq.
  set (sorted := sort_Sort sortedFiles_Less entries0) in *.
  assert (sorted ≡ₚ entries0) as Hp by apply sort_Sort_Permutation.
  rewrite <- Hp in Hrd.
  rewrite <- (sumSizes_Permutation (map slot sorted)) in Hsum
    by (by apply Permutation_map).
  pose proof (slot_nonneg _ Hrd) as Hnn.
  pose proof (sumSizes_nonneg _ Hnn).
  eapply shrink_accounted; [|exact Hsh].
  unfold accounted. simpl.
  rewrite foldl_add_size_exact by (done || lia).
  repeat split; try done; lia.
Qed.

(** C4, evaluated where it fails.  The slice is allocated with one slot
    per directory entry, and [continue] skips the assignment, not the
    slot: the sub-directory "old" leaves the zero [File] (empty name,
    size 0) in the tracked sequence, ahead of the image.  The store is
    handed out with that entry; with a count limit of 1 the first eviction
    pass tries to remove it, that is, the managed directory itself, and
    opening fails. *)
Theorem open_tracks_slot_of_skipped_entry :
  ∃ entries,
    ioutil_ReadDir fs_mixed tmpDir = inl entries ∧
    scan (sort_Sort sortedFiles_Less entries)
      = ([zero_File; mkFile "a.png" 3], 3) ∧
    OpenLimitedDir fs_mixed tmpDir 5 4
      = (fs_mixed,
         Some (mkLimitedDir tmpDir 5 4 [zero_File; mkFile "a.png" 3] 3), Nil) ∧
    OpenLimitedDir fs_mixed tmpDir 5 1 = (fs_mixed, None, Error ENOTEMPTY).
Proof.
  eexists. split; [vm_compute; reflexivity|].
  split; [vm_compute; reflexivity|].
  split; vm_compute; reflexivity.
Qed.

(** ** The padded canvas *)

Import Img.

Lemma pad_pixel_Rect src j dst i : RGBARect (pad_pixel src j dst i) = RGBARect dst.
Proof.
  unfold pad_pixel, RGBA_Set.
  repeat (case_match; simpl); done.
Qed.

Lemma pad_pixel_here src j dst i :
  Point_In (Pt i j) (RGBARect dst) = true →
  Pix (pad_pixel src j dst i) i j = painted src i j.
Proof.
  intros Hin. unfold pad_pixel, painted.
  change (Point_In (Pt i j) (Bounds src)) with
    ((X (Min (Bounds src)) <=? i) && (i <? X (Max (Bounds src))) &&
     (Y (Min (Bounds src)) <=? j) && (j <? Y (Max (Bounds src)))).
  destruct (_ && _ && _ && _); unfold RGBA_Set; rewrite Hin; simpl;
    by rewrite !Z.eqb_refl.
Qed.

Lemma pad_pixel_elsewhere src j dst i x y :
  x ≠ i ∨ y ≠ j → Pix (pad_pixel src j dst i) x y = Pix dst x y.
Proof.
  intros Hne. unfold pad_pixel, RGBA_Set.
  assert ((x =? i) && (y =? j) = false) as Hf.
  { apply andb_false_iff. rewrite !Z.eqb_neq. done. }
  repeat (case_match; simpl); by rewrite ?Hf.
Qed.

Section row.

Variables (src : Image) (j : Z).

Lemma row_Rect cols dst :
  RGBARect (foldl (pad_pixel src j) dst cols) = RGBARect dst.
Proof.
  revert dst. induction cols as [|i cols IH]; intros dst; simpl; [done|].
  by rewrite IH, pad_pixel_Rect.
Qed.

Lemma row_elsewhere cols dst x y :
  x ∉ cols ∨ y ≠ j →
  Pix (foldl (pad_pixel src j) dst cols) x y = Pix dst x y.
Proof.
  revert dst. induction cols as [|i cols IH]; intros dst Hne; simpl; [done|].
  rewrite IH, pad_pixel_elsewhere; [done| |].
  - destruct Hne as [Hne|Hne]; [left|by right].
    intros ->. apply Hne, list_elem_of_here.
  - destruct Hne as [Hne|Hne]; [left|by right].
    intros Hx. by apply Hne, list_elem_of_further.
Qed.

Lemma row_painted cols dst x :
  x ∈ cols → Point_In (Pt x j) (RGBARect dst) = true →
  Pix (foldl (pad_pixel src j) dst cols) x j = painted src x j.
Proof.
  revert dst. induction cols as [|i cols IH]; intros dst Hx Hin; simpl.
  - by apply elem_of_nil in Hx.
  - destruct (decide (x ∈ cols)) as [Hc|Hc].
    + apply IH; [done|]. by rewrite pad_pixel_Rect.
    + apply elem_of_cons in Hx as [->|Hx]; [|done].
      rewrite row_elsewhere by (by left). by apply pad_pixel_here.
Qed.

End row.

Section canvas.

Variables (src : Image) (cols : list Z).

Let paint_row (dst : RGBAImage) (j : Z) : RGBAImage :=
  foldl (pad_pixel src j) dst cols.

Lemma canvas_Rect rows dst : RGBARect (foldl paint_row dst rows) = RGBARect dst.
Proof.
  revert dst. induction rows as [|j rows IH]; intros dst; simpl; [done|].
  rewrite IH. apply row_Rect.
Qed.

Lemma canvas_elsewhere rows dst x y :
  x ∉ cols ∨ y ∉ rows → Pix (foldl paint_row dst rows) x y = Pix dst x y.
Proof.
  revert dst. induction rows as [|j rows IH]; intros dst Hne; simpl; [done|].
  rewrite IH.
  - apply row_elsewhere. destruct Hne as [Hne|Hne]; [by left|right].
    intros ->. apply Hne, list_elem_of_here.
  - destruct Hne as [Hne|Hne]; [by left|right].
    intros Hy. by apply Hne, list_elem_of_further.
Qed.

Lemma canvas_painted rows dst x y :
  x ∈ cols → y ∈ rows → Point_In (Pt x y) (RGBARect dst) = true →
  Pix (foldl paint_row dst rows) x y = painted src x y.
Proof.
  revert dst. induction rows as [|j rows IH]; intros dst Hx Hy Hin; simpl.
  - by apply elem_of_nil in Hy.
  - destruct (decide (y ∈ rows)) as [Hr|Hr].
    + apply IH; [done|done|]. unfold paint_row. by rewrite row_Rect.
    + apply elem_of_cons in Hy as [->|Hy]; [|done].
      rewrite canvas_elsewhere by (by right). by apply row_painted.
Qed.

End canvas.

Lemma elem_of_loop_range lo hi x : x ∈ loop_range lo hi ↔ lo ≤ x < hi.
Proof. unfold loop_range. rewrite elem_of_seqZ. lia. Qed.

Lemma Point_In_spec x y r :
  Point_In (Pt x y) r = true ↔
  X (Min r) ≤ x < X (Max r) ∧ Y (Min r) ≤ y < Y (Max r).
Proof.
  unfold Point_In. simpl.
  rewrite !andb_true_iff, !Z.leb_le, !Z.ltb_lt. lia.
Qed.

(** The padded canvas of a decoded image, for any padding that is not
    negative and fits 31 bits. *)
Lemma pad_spec src padding :
  decoded_bounds (Bounds src) → 0 ≤ padding < 2 ^ 31 →
  let dst := pad src padding in
  RGBARect dst = mkRect (Pt (- padding) (- padding))
                   (Pt (X (Max (Bounds src)) + padding)
                       (Y (Max (Bounds src)) + padding)) ∧
  ∀ x y, Point_In (Pt x y) (RGBARect dst) = true →
         RGBA_At dst x y = painted src x y.
Proof.
  intros (Hmin & HX & HY) Hp.
  assert (Rect (wrap64 (X (Min (Bounds src)) - padding))
               (wrap64 (Y (Min (Bounds src)) - padding))
               (wrap64 (X (Max (Bounds src)) + padding))
               (wrap64 (Y (Max (Bounds src)) + padding))
          = mkRect (Pt (- padding) (- padding))
                   (Pt (X (Max (Bounds src)) + padding)
                       (Y (Max (Bounds src)) + padding))) as HR.
  { rewrite Hmin. simpl.
    rewrite !wrap64_id by (unfold in_range, min_int, max_int; lia).
    unfold Rect. rewrite !Z.sub_0_l.
    destruct (Z.ltb_spec (X (Max (Bounds src)) + padding) (- padding)); [lia|].
    destruct (Z.ltb_spec (Y (Max (Bounds src)) + padding) (- padding)); [lia|].
    done. }
  unfold pad. cbv zeta. rewrite !HR. clear HR.
  split; [by rewrite canvas_Rect|].
  intros x y Hin. unfold RGBA_At. rewrite Hin. simpl.
  rewrite canvas_Rect in Hin. simpl in Hin.
  pose proof Hin as Hxy. apply Point_In_spec in Hxy. simpl in Hxy.
  apply canvas_painted; [apply elem_of_loop_range; lia..|done].
Qed.

(** *** Conversion to 8 bits *)

Lemma spread_byte k : 0 ≤ k < 256 → spread k = 257 * k.
Proof.
  intros Hk.
  assert (Forall (λ k, spread k = 257 * k) (seqZ 0 256)) as H
    by (apply (bool_decide_unpack _); vm_compute; exact I).
  rewrite Forall_forall in H. apply H, elem_of_seqZ. lia.
Qed.

Lemma high_byte_spread k : 0 ≤ k < 256 → high_byte (257 * k) = k.
Proof.
  intros Hk.
  assert (Forall (λ k, high_byte (257 * k) = k) (seqZ 0 256)) as H
    by (apply (bool_decide_unpack _); vm_compute; exact I).
  rewrite Forall_forall in H. apply H, elem_of_seqZ. lia.
Qed.

(** Converting an 8-bit colour to [color.RGBA] keeps the colour. *)
Lemma rgbaModel_eight_bit c : eight_bit c → same_colour (rgbaModel c) c.
Proof.
  unfold eight_bit, same_colour, rgbaModel.
  destruct c as [r g b a|r g b a|r g b a|r g b a|y|y]; [done|..];
    destruct (Color_RGBA _) as [[[r' g'] b'] a'] eqn:E; intros H;
    apply Forall_cons in H as [(kr & Hr & ->) H];
    apply Forall_cons in H as [(kg & Hg & ->) H];
    apply Forall_cons in H as [(kb & Hb & ->) H];
    apply Forall_cons in H as [(ka & Ha & ->) _];
    simpl; by rewrite !high_byte_spread, !spread_byte.
Qed.

(** The colours of opaque 8-bit sources are 8-bit colours. *)
Lemma eight_bit_sources r g b y :
  0 ≤ r < 256 → 0 ≤ g < 256 → 0 ≤ b < 256 → 0 ≤ y < 256 →
  eight_bit (RGBA r g b 255) ∧ eight_bit (NRGBA r g b 255) ∧ eight_bit (Gray y).
Proof.
  intros Hr Hg Hb Hy. unfold eight_bit. simpl.
  rewrite !(spread_byte _ Hr), !(spread_byte _ Hg), !(spread_byte _ Hb),
    !(spread_byte _ Hy), !(spread_byte 255), !Z.div_mul by lia.
  change 65535 with (257 * 255).
  repeat split; repeat constructor; eauto with lia;
    exists 255; lia.
Qed.

Lemma decoded_bounds_deep_gray : decoded_bounds (Bounds deep_gray).
Proof. unfold decoded_bounds. simpl. split; [reflexivity|lia]. Qed.

Lemma decoded_bounds_solid : decoded_bounds (Bounds solid).
Proof. unfold decoded_bounds. simpl. split; [reflexivity|lia]. Qed.

(** C7, as stated, fails for sources deeper than 8 bits: the canvas is an
    [image.RGBA], so the 16-bit gray level 0x1234 is stored as 0x12 and
    reads back as 0x1212. *)
Lemma padding_claim_as_stated_fails :
  ¬ (∀ src, decoded_bounds (Bounds src) →
      ∀ x y, Point_In (Pt x y) (Bounds src) = true →
             same_colour (RGBA_At (pad src 20) x y) (At src x y)).
Proof.
  intros H.
  specialize (H deep_gray decoded_bounds_deep_gray 0 0 eq_refl).
  destruct (pad_spec deep_gray 20 decoded_bounds_deep_gray) as [Hr Hpix]; [lia|].
  rewrite Hpix in H by (by rewrite Hr).
  vm_compute in H. discriminate H.
Qed.

(** C7 (amended).  For a decoded image of W x H pixels (N x N in
    particular) the padding step with padding 20 yields a canvas whose
    bounds are the original ones extended by 20 on every side,
    (W+40) x (H+40).  A pixel inside the original bounds is the original
    pixel converted to 8-bit alpha-premultiplied RGBA, which is the same
    colour whenever the original is an 8-bit colour; a pixel of the canvas
    outside the original bounds is opaque white. *)
Theorem fixImage_padding src :
  decoded_bounds (Bounds src) →
  let W := X (Max (Bounds src)) in
  let H := Y (Max (Bounds src)) in
  let dst := pad src 20 in
  RGBARect dst = mkRect (Pt (-20) (-20)) (Pt (W + 20) (H + 20)) ∧
  Dx (RGBARect dst) = W + 40 ∧ Dy (RGBARect dst) = H + 40 ∧
  (∀ x y, Point_In (Pt x y) (Bounds src) = true →
     RGBA_At dst x y = rgbaModel (At src x y) ∧
     (eight_bit (At src x y) → same_colour (RGBA_At dst x y) (At src x y))) ∧
  (∀ x y, Point_In (Pt x y) (RGBARect dst) = true →
          Point_In (Pt x y) (Bounds src) = false →
          RGBA_At dst x y = white).
Proof.
  intros Hb W H dst.
  destruct (pad_spec src 20 Hb) as [Hr Hpix]; [lia|]. fold dst in Hr, Hpix.
  change (- (20)) with (-20) in Hr. fold W H in Hr.
  split; [done|]. rewrite Hr. unfold Dx, Dy. simpl.
  split; [lia|]. split; [lia|]. split.
  - intros x y Hin.
    assert (RGBA_At dst x y = rgbaModel (At src x y)) as Hat.
    { rewrite Hpix; [unfold painted; by rewrite Hin|].
      rewrite Hr. apply Point_In_spec in Hin. apply Point_In_spec.
      destruct Hb as (Hmin & _). rewrite Hmin in Hin. simpl in *.
      unfold W, H. lia. }
    split; [done|]. intros H8. rewrite Hat. by apply rgbaModel_eight_bit.
  - intros x y Hin Hout. rewrite Hpix by (by rewrite Hr).
    unfold painted. by rewrite Hout.
Qed.

Lemma fixImage_padding_witness :
  RGBARect (pad solid 20) = mkRect (Pt (-20) (-20)) (Pt 22 22) ∧
  RGBA_At (pad solid 20) 1 1 = RGBA 10 20 30 255 ∧
  same_colour (RGBA_At (pad solid 20) 1 1) (NRGBA 10 20 30 255) ∧
  RGBA_At (pad solid 20) 21 (-20) = white.
Proof.
  destruct (fixImage_padding solid decoded_bounds_solid)
    as (Hr & _ & _ & Hin & Hout).
  destruct (Hin 1 1 eq_refl) as [Hat Hsame].
  split; [exact Hr|]. split; [exact Hat|]. split.
  - apply Hsame. apply (eight_bit_sources 10 20 30 0); lia.
  - apply Hout; [rewrite Hr|]; reflexivity.
Defined.

(** ** The candidate file of [save] *)

Lemma locate_Join_mk rt st name :
  name ≠ "" → locate (mkFS rt st) (filepath_Join rt name) = Entry name.
Proof. apply (locate_Join (mkFS rt st)). Qed.

Section candidate.

Variables (rt : string) (r : bool) (es : gmap string Node) (name : string).
Hypothesis name_not_empty : name ≠ "".

Lemma os_Create_candidate now fs1 :
  os_Create now (mkFS rt (Dir r es)) (filepath_Join rt name) = (fs1, None) →
  holds_candidate rt r es name fs1.
Proof.
  unfold os_Create. simpl.
  rewrite (locate_Join_mk rt _ name name_not_empty).
  intros H. exists (mkNode true 0 now false). split; [done|].
  repeat (case_match; simplify_eq); done.
Qed.

Lemma os_Write_candidate now fs written :
  holds_candidate rt r es name fs →
  holds_candidate rt r es name (os_Write now fs (filepath_Join rt name) written).
Proof.
  intros (n & Hn & ->). unfold os_Write. simpl.
  rewrite (locate_Join_mk rt _ name name_not_empty).
  rewrite lookup_insert_eq, insert_insert_eq.
  by exists (mkNode (isRegular n) written now (pinned n)).
Qed.

(** Removing the candidate succeeds and leaves the other entries. *)
Lemma os_Remove_candidate fs :
  holds_candidate rt r es name fs →
  os_Remove fs (filepath_Join rt name) = (mkFS rt (Dir r (delete name es)), None).
Proof.
  intros (n & Hn & ->). unfold os_Remove. simpl.
  rewrite (locate_Join_mk rt _ name name_not_empty).
  by rewrite lookup_insert_eq, Hn, delete_insert_eq.
Qed.

Lemma os_Stat_removed :
  os_Stat (mkFS rt (Dir r (delete name es))) (filepath_Join rt name) = inr ENOENT.
Proof.
  unfold os_Stat. simpl.
  rewrite (locate_Join_mk rt _ name name_not_empty).
  by rewrite lookup_delete_eq.
Qed.

End candidate.

Lemma png_name_not_empty s : s +:+ ".png" ≠ "".
Proof. by destruct s. Qed.

Section pipeline_facts.

Variable png_Decode : list Byte.byte → Img.Image + error.
Variable png_Encode : Img.RGBAImage → list Byte.byte + error.

Lemma fixImage_candidate rt r es name now fs rd padding fault fs2 st :
  name ≠ "" →
  holds_candidate rt r es name fs →
  fixImage png_Decode png_Encode now fs (filepath_Join rt name) rd padding fault
    = (fs2, st) →
  holds_candidate rt r es name fs2.
Proof.
  intros Hn Hc. unfold fixImage. intros H.
  repeat (case_match; simplify_eq); try done; by apply os_Write_candidate.
Qed.

(** A stream that does not decode makes [fixImage] fail with the decoder's
    error, before anything is written. *)
Lemma fixImage_decode_error now fs fp rd padding fault e :
  png_Decode rd = inr e →
  fixImage png_Decode png_Encode now fs fp rd padding fault = (fs, Error e).
Proof. intros H. unfold fixImage. by rewrite H. Qed.


(** C8.  A failure of [fixImage] (the stream does not decode, the canvas
    does not encode, a write fails) or of the [Close] that commits the
    file makes [save] return that error with the store untouched and no
    reference handed out, and the deferred cleanup has removed the
    candidate: the directory holds the entries it held before, less the
    candidate's name, so no new file is left.  The two earlier failing
    exits, of the random source and of [os.Create], leave before any file
    exists. *)
Theorem save_failure_leaves_nothing imgURL fs d maxImgSize req :
  (∀ e, rand_Read req = inr e →
        save png_Decode png_Encode imgURL fs d maxImgSize req
          = (fs, d, "", Error e)) ∧
  (∀ buf, rand_Read req = inl buf →
     let name := hex buf +:+ ".png" in
     let p := filepath_Join (Path d) name in
     let rd := io_LimitedReader (Body req) maxImgSize in
     (∀ e, os_Create (arrival req) fs p = (fs, Some e) →
           save png_Decode png_Encode imgURL fs d maxImgSize req
             = (fs, d, "", Error e)) ∧
     (∀ r es fs1 fs2 e,
        state fs = Dir r es → root fs = path d →
        os_Create (arrival req) fs p = (fs1, None) →
        fixImage png_Decode png_Encode (arrival req) fs1 p rd 20 (write_fault req)
          = (fs2, Error e) ∨
        (fixImage png_Decode png_Encode (arrival req) fs1 p rd 20 (write_fault req)
          = (fs2, Nil) ∧ close_fault req = Some e) →
        let fs' := mkFS (root fs) (Dir r (delete name es)) in
        save png_Decode png_Encode imgURL fs d maxImgSize req
          = (fs', d, "", Error e) ∧
        os_Stat fs' p = inr ENOENT) ∧
     (∀ r es fs1 e,
        state fs = Dir r es → root fs = path d →
        os_Create (arrival req) fs p = (fs1, None) →
        png_Decode rd = inr e →
        save png_Decode png_Encode imgURL fs d maxImgSize req
          = (mkFS (root fs) (Dir r (delete name es)), d, "", Error e))).
Proof.
  split; [intros e Hrand; unfold save; by rewrite Hrand|].
  intros buf Hrand name p rd.
  assert (name ≠ "") as Hn by apply png_name_not_empty.
  assert (∀ r es fs1 fs2 e,
     state fs = Dir r es → root fs = path d →
     os_Create (arrival req) fs p = (fs1, None) →
     fixImage png_Decode png_Encode (arrival req) fs1 p rd 20 (write_fault req)
       = (fs2, Error e) ∨
     (fixImage png_Decode png_Encode (arrival req) fs1 p rd 20 (write_fault req)
       = (fs2, Nil) ∧ close_fault req = Some e) →
     save png_Decode png_Encode imgURL fs d maxImgSize req
       = (mkFS (root fs) (Dir r (delete name es)), d, "", Error e)) as Hmain.
  { intros r es fs1 fs2 e Hs Hr Hc Hfail.
    assert (fs = mkFS (path d) (Dir r es)) as Hfs
      by (destruct fs; simpl in *; by subst).
    unfold save. rewrite Hrand. fold name p rd. rewrite Hc.
    assert (holds_candidate (path d) r es name fs1) as Hc1.
    { eapply os_Create_candidate; [done|]. unfold p, Path in Hc.
      rewrite Hfs in Hc. exact Hc. }
    assert (holds_candidate (path d) r es name fs2) as Hc2.
    { destruct Hfail as [Hf|[Hf _]];
        eapply fixImage_candidate; try exact Hf; done. }
    apply (os_Remove_candidate _ _ _ _ Hn) in Hc2. fold (Path d) p in Hc2.
    destruct Hfail as [Hf|[Hf Hcl]]; rewrite Hf, ?Hcl, Hc2; simpl;
      by rewrite Hr. }
  split; [|split].
  - intros e Hc. unfold save. rewrite Hrand. fold name p. by rewrite Hc.
  - intros r es fs1 fs2 e Hs Hr Hc Hfail fs'. split; [by eapply Hmain|].
    unfold fs'. rewrite Hr. by apply os_Stat_removed.
  - intros r es fs1 e Hs Hr Hc Hdec. eapply (Hmain r es fs1 fs1); try done.
    left. by apply fixImage_decode_error.
Qed.

End pipeline_facts.

Lemma save_failure_leaves_nothing_witness :
  save toy_Decode toy_Encode "/saved/" fs_five d_five 10 req_truncated
    = (fs_five, d_five, "", Error ErrFormat) ∧
  os_Stat fs_five (filepath_Join tmpDir candidate_name) = inr ENOENT.
Proof.
  destruct (save_failure_leaves_nothing toy_Decode toy_Encode "/saved/"
              fs_five d_five 10 req_truncated) as (_ & H).
  specialize (H (replicate 16 Byte.xab) eq_refl). cbv zeta in H.
  destruct H as (_ & Hfail & _).
  specialize (Hfail true {["9-5" := mkNode true 5 0 false]}
           (os_Create 7 fs_five (filepath_Join tmpDir candidate_name)).1
           (os_Create 7 fs_five (filepath_Join tmpDir candidate_name)).1
           ErrFormat).
  cbv zeta in Hfail.
  assert (mkFS (root fs_five)
            (Dir true (delete candidate_name {["9-5" := mkNode true 5 0 false]}))
          = fs_five) as Hsame by (vm_compute; reflexivity).
  unfold candidate_name in Hsame. rewrite Hsame in Hfail.
  apply Hfail.
  - vm_compute. reflexivity.
  - reflexivity.
  - vm_compute. reflexivity.
  - left. vm_compute. reflexivity.
Defined.

(** ** The rate gate, one request at a time *)

Lemma time_Sub_lt t u m :
  m ≤ max_int → u < t → ((time_Sub t u <? m) = true ↔ t - u < m).
Proof.
  intros Hm Hut. rewrite Z.ltb_lt. unfold time_Sub, min_int, max_int in *. lia.
Qed.

Lemma process_lastTime dec enc imgURL maxImgSize s req s' rp :
  process dec enc imgURL maxImgSize s req = (s', rp) →
  lastTime s' = lastTime s ∧ rp ≠ RateLimited.
Proof.
  unfold process.
  destruct (save _ _ _ _ _ _ _) as [[[fs1 d1] public] [|e|]];
    intros H; by simplify_eq.
Qed.

Lemma handler_inv dec enc minDelay imgURL maxImgSize s req s' rp :
  handler dec enc minDelay imgURL maxImgSize s req = (s', rp) →
  ((time_Sub (arrival req) (lastTime s) <? minDelay) = true ∧
   s' = s ∧ rp = RateLimited) ∨
  ((time_Sub (arrival req) (lastTime s) <? minDelay) = false ∧
   process dec enc imgURL maxImgSize
     (mkServer (arrival req) (imgDir s) (disk s)) req = (s', rp)).
Proof.
  unfold handler, gate.
  destruct (time_Sub (arrival req) (lastTime s) <? minDelay); intros H.
  - left. by simplify_eq.
  - right. done.
Qed.

(** C5.  Take two requests handled one after the other, arriving at
    [t1 < t2], the first of which is let in.  The second is answered
    "rate limited" exactly when [t2 - t1 < minDelay].  A request that is
    let in has set the stored time to its own arrival before [save] is
    called, and the stored time is that arrival whatever [save] returns; a
    rejected request leaves the whole state as it was. *)
Theorem rate_gate_sequential dec enc minDelay imgURL maxImgSize
    s0 req1 req2 s1 r1 s2 r2 :
  in_range minDelay →
  arrival req1 < arrival req2 →
  handler dec enc minDelay imgURL maxImgSize s0 req1 = (s1, r1) →
  r1 ≠ RateLimited →
  handler dec enc minDelay imgURL maxImgSize s1 req2 = (s2, r2) →
  lastTime s1 = arrival req1 ∧
  handler dec enc minDelay imgURL maxImgSize s0 req1
    = process dec enc imgURL maxImgSize
        (mkServer (arrival req1) (imgDir s0) (disk s0)) req1 ∧
  (r2 = RateLimited ↔ arrival req2 - arrival req1 < minDelay) ∧
  (r2 = RateLimited → s2 = s1) ∧
  (r2 ≠ RateLimited →
     lastTime s2 = arrival req2 ∧
     handler dec enc minDelay imgURL maxImgSize s1 req2
       = process dec enc imgURL maxImgSize
           (mkServer (arrival req2) (imgDir s1) (disk s1)) req2).
Proof.
  intros [_ Hm] Ht H1 Hacc H2.
  pose proof H1 as H1'. pose proof H2 as H2'.
  apply handler_inv in H1' as [(_ & _ & ?)|[_ Hp1]]; [done|].
  pose proof (process_lastTime _ _ _ _ _ _ _ _ Hp1) as [Hl1 _]. simpl in Hl1.
  split; [done|]. split; [by rewrite H1, Hp1|].
  apply handler_inv in H2' as [(Hc & -> & ->)|[Hc Hp2]]; rewrite Hl1 in Hc.
  - apply (time_Sub_lt _ _ _ Hm Ht) in Hc. done.
  - pose proof (process_lastTime _ _ _ _ _ _ _ _ Hp2) as [Hl2 Hne].
    simpl in Hl2. split; [|split; [done|]].
    + split; [done|]. intros Hlt%(time_Sub_lt _ _ _ Hm Ht). congruence.
    + intros _. split; [done|]. by rewrite H2, Hp2.
Qed.

Lemma rate_gate_sequential_witness :
  let first := handler toy_Decode toy_Encode five_seconds "/saved/" 10
                 s_start (req_at 10000000000) in
  let second := handler toy_Decode toy_Encode five_seconds "/saved/" 10
                  first.1 (req_at 12000000000) in
  lastTime first.1 = 10000000000 ∧ second.2 = RateLimited ∧ second.1 = first.1.
Proof.
  intros first second.
  assert (in_range five_seconds) as Hr
    by (unfold in_range, min_int, max_int, five_seconds; lia).
  assert (arrival (req_at 10000000000) < arrival (req_at 12000000000)) as Ht
    by (simpl; lia).
  assert (first.2 ≠ RateLimited) as Hacc by (vm_compute; discriminate).
  destruct (rate_gate_sequential toy_Decode toy_Encode five_seconds "/saved/" 10
              s_start (req_at 10000000000) (req_at 12000000000)
              first.1 first.2 second.1 second.2 Hr Ht
              (surjective_pairing first) Hacc (surjective_pairing second))
    as (H1 & _ & H2 & H3 & _).
  assert (second.2 = RateLimited) as Hrej
    by (apply H2; unfold five_seconds; simpl; lia).
  split; [exact H1|]. split; [exact Hrej|exact (H3 Hrej)].
Defined.

(** ** The rate gate under concurrent requests *)

Import Concurrent.

(** A goroutine that is not interrupted does what [gate] does. *)
Lemma alone_is_gate minDelay now last d fs :
  exec minDelay (mkShared now last None, [AtNow]) (replicate 5 (Run 0%nat))
  = Some (mkShared now last None,
          [if (gate minDelay (mkServer last d fs) now).2
           then AtLock2 now else Answered429]) ∧
  exec minDelay (mkShared now last None, [AtLock2 now]) (replicate 3 (Run 0%nat))
  = Some (mkShared now now None, [AtSave now]).
Proof.
  split; [|done]. unfold gate. simpl.
  by destruct (time_Sub now last <? minDelay).
Qed.

(** One after the other, the second of two simultaneous requests is
    turned away. *)
Example sequential_requests :
  exec five_seconds two_arrive one_after_the_other
  = Some (mkShared ten_seconds ten_seconds None,
          [AtSave ten_seconds; Answered429]).
Proof. vm_compute. reflexivity. Qed.

(** C6, evaluated where it fails.  The check and the update are two
    critical sections, and the mutex is free in between: when two
    goroutines both read [lastTime] before either writes it, both pass the
    check and both are let in, one nanosecond apart, with a minimum delay
    of five seconds. *)
Theorem gate_lets_two_concurrent_requests_in :
  exec five_seconds two_arrive interleaved
  = Some (mkShared (ten_seconds + 1) (ten_seconds + 1) None,
          [AtSave ten_seconds; AtSave (ten_seconds + 1)]) ∧
  (ten_seconds + 1) - ten_seconds < five_seconds.
Proof. split; [vm_compute; reflexivity|vm_compute; reflexivity]. Qed.

(** * Further facts about the code *)

(** ** What eviction does to the disk *)

Lemma deleted_all_lookup es fl n :
  deleted_all es fl !! n
  = if decide (n ∈ map Name fl) then None else es !! n.
Proof.
  unfold deleted_all. revert es.
  induction fl as [|f fl IH]; intros es.
  - case_decide as Hin; [by apply elem_of_nil in Hin|done].
  - cbn [foldl]. rewrite IH.
    destruct (decide (n = Name f)) as [->|Hne].
    + rewrite lookup_delete_eq.
      rewrite (decide_True (P := Name f ∈ map Name (f :: fl)))
        by apply list_elem_of_here.
      by case_decide.
    + rewrite lookup_delete_ne by done.
      case_decide as Hin.
      * by rewrite decide_True by (by apply list_elem_of_further).
      * rewrite decide_False; [done|].
        intros [?|?]%elem_of_cons; done.
Qed.

Lemma deleted_all_absent es f fl :
  es !! Name f = None → deleted_all es (f :: fl) = deleted_all es fl.
Proof. intros H. unfold deleted_all. simpl. by rewrite delete_id. Qed.

(** The loop deletes the files of exactly the entries it drops, whatever
    its status: a removal that fails for good stops it before the entry is
    dropped, and an entry whose file was already gone costs nothing. *)
Lemma shrink_loop_disk ms mc fl : ∀ fs r es sz fs' sz' fl' st,
  state fs = Dir r es →
  Forall (λ f, Name f ≠ "") fl →
  shrink_loop (root fs) ms mc fs sz fl = (fs', (sz', fl'), st) →
  ∃ k, (k ≤ length fl)%nat ∧ fl' = drop k fl ∧
       fs' = mkFS (root fs) (Dir r (deleted_all es (take k fl))).
Proof.
  induction fl as [|f rest IH]; intros fs r es sz fs' sz' fl' st Hs Hne H;
    simpl in H.
  - exists 0%nat. destruct fs. simpl in *.
    destruct (over_quota ms mc sz []); simplify_eq; done.
  - destruct (over_quota ms mc sz (f :: rest)).
    2:{ exists 0%nat. destruct fs. simpl in *. simplify_eq.
        split; [lia|done]. }
    apply Forall_cons in Hne as [Hf Hne].
    unfold os_Remove in H. rewrite Hs, (locate_Join fs _ Hf) in H.
    destruct (es !! Name f) as [n|] eqn:Hn.
    + destruct (pinned n); simpl in H.
      * exists 0%nat. destruct fs. simpl in *. simplify_eq.
        split; [lia|done].
      * apply (IH (mkFS (root fs) (Dir r (delete (Name f) es))) r
                 (delete (Name f) es)) in H as (k & Hk & -> & ->); try done.
        exists (S k). simpl. split; [lia|done].
    + simpl in H.
      apply (IH fs r es) in H as (k & Hk & -> & ->); try done.
      exists (S k). rewrite firstn_cons, deleted_all_absent by done.
      simpl. split; [lia|done].
Qed.

Lemma shrink_disk fs d r es fs' d' st :
  state fs = Dir r es → root fs = path d →
  Forall (λ f, Name f ≠ "") (files d) →
  shrink fs d = (fs', d', st) →
  ∃ k, (k ≤ length (files d))%nat ∧ files d' = drop k (files d) ∧
       fs' = mkFS (root fs) (Dir r (deleted_all es (take k (files d)))).
Proof.
  intros Hs Hr Hne (sz & fl & H & ->)%shrink_inv. simpl.
  rewrite <- Hr in H. by eapply shrink_loop_disk.
Qed.

Lemma Add_disk fs d name info r es fs' d' st :
  state fs = Dir r es → root fs = path d →
  Forall (λ f, Name f ≠ "") (files d) → name ≠ "" →
  os_Stat fs (filepath_Join (path d) name) = inl info →
  Add fs d name = (fs', d', st) →
  ∃ k, files d' = drop k (files d ++ [mkFile name (fiSize info)]) ∧
       fs' = mkFS (root fs)
               (Dir r (deleted_all es
                         (take k (files d ++ [mkFile name (fiSize info)])))).
Proof.
  intros Hs Hr Hne Hn Hst H. unfold Add in H. rewrite Hst in H.
  apply (shrink_disk _ _ r es) in H as (k & _ & Hk & ->); try done.
  2:{ rewrite register_files. apply Forall_app. split; [done|].
      by apply Forall_singleton. }
  rewrite register_files in Hk. eauto.
Qed.

(** X1.  What [Add] does to the disk.  In the managed directory, after an
    [Add] that got past the stat, whatever it returned: the tracked
    sequence is the old one with the new entry appended, less a prefix,
    and the directory is the one [Add] found, less the files of exactly
    the entries of that prefix.  A file named by no dropped entry is
    untouched, and no file of a dropped entry is left. *)
Theorem Add_deletes_what_it_drops fs d name info r es fs' d' st :
  state fs = Dir r es → root fs = path d →
  Forall (λ f, Name f ≠ "") (files d) → name ≠ "" →
  os_Stat fs (filepath_Join (path d) name) = inl info →
  Add fs d name = (fs', d', st) →
  ∃ k es',
    files d' = drop k (files d ++ [mkFile name (fiSize info)]) ∧
    fs' = mkFS (root fs) (Dir r es') ∧
    (∀ n, n ∉ map Name (take k (files d ++ [mkFile name (fiSize info)])) →
          es' !! n = es !! n) ∧
    (∀ f, f ∈ take k (files d ++ [mkFile name (fiSize info)]) →
          es' !! Name f = None).
Proof.
  intros Hs Hr Hne Hn Hst H.
  destruct (Add_disk _ _ _ _ _ _ _ _ _ Hs Hr Hne Hn Hst H) as (k & Hk & ->).
  exists k, (deleted_all es (take k (files d ++ [mkFile name (fiSize info)]))).
  split; [done|]. split; [done|]. split.
  - intros n Hnot. rewrite deleted_all_lookup. by rewrite decide_False.
  - intros f Hf. rewrite deleted_all_lookup. rewrite decide_True; [done|].
    apply list_elem_of_fmap. eauto.
Qed.

Lemma Add_deletes_what_it_drops_witness :
  ∃ k es',
    files (Add fs_ABCD d_ABC "D").1.2
      = drop k (files d_ABC ++ [mkFile "D" 40]) ∧
    (Add fs_ABCD d_ABC "D").1.1 = mkFS (root fs_ABCD) (Dir true es') ∧
    (∀ n, n ∉ map Name (take k (files d_ABC ++ [mkFile "D" 40])) →
          es' !! n = es_ABCD !! n) ∧
    (∀ f, f ∈ take k (files d_ABC ++ [mkFile "D" 40]) → es' !! Name f = None).
Proof.
  apply (Add_deletes_what_it_drops fs_ABCD d_ABC "D"
           (mkFileInfo "D" 40 true 4) true es_ABCD _ _
           (Add fs_ABCD d_ABC "D").2).
  - vm_compute. reflexivity.
  - reflexivity.
  - repeat constructor; discriminate.
  - discriminate.
  - vm_compute. reflexivity.
  - by destruct (Add fs_ABCD d_ABC "D") as [[? ?] ?].
Defined.

(** ** Eviction by count alone *)

Lemma shrink_loop_newest dir ms mc fl : ∀ fs sz fs' sz' fl',
  0 ≤ mc → Forall (λ f, 0 ≤ Size f) fl →
  sumSizes fl ≤ sz → sz ≤ ms → sz ≤ max_int →
  shrink_loop dir ms mc fs sz fl = (fs', (sz', fl'), Nil) →
  fl' = drop (length fl - Z.to_nat mc) fl.
Proof.
  induction fl as [|f rest IH]; intros fs sz fs' sz' fl' Hmc Hnn Hsum Hms Hmax H;
    simpl in H.
  - destruct (over_quota ms mc sz []); by simplify_eq.
  - destruct (over_quota ms mc sz (f :: rest)) eqn:Hq.
    + apply Forall_cons in Hnn as [Hf Hnn]. simpl in Hsum.
      pose proof (sumSizes_nonneg _ Hnn) as Hrest.
      unfold over_quota, len in Hq. simpl length in Hq.
      apply orb_true_iff in Hq as [Hq|Hq].
      { apply andb_true_iff in Hq as [Hq _]. apply Z.ltb_lt in Hq. lia. }
      apply Z.ltb_lt in Hq.
      replace (length (f :: rest) - Z.to_nat mc)%nat
        with (S (length rest - Z.to_nat mc)) by (simpl; lia).
      simpl drop.
      destruct (os_Remove fs _) as [fs1 [e|]].
      * destruct (negb (os_IsNotExist e)); [done|].
        eapply IH; try exact H; try done; lia.
      * eapply IH; try exact H; try done;
          rewrite wrap64_id by (unfold in_range, min_int, max_int in *; lia);
          lia.
    + simplify_eq. apply over_quota_false in Hq as [_ Hq].
      unfold len in Hq.
      replace (length (f :: rest) - Z.to_nat mc)%nat with 0%nat by lia.
      done.
Qed.

(** X2.  With room in bytes, eviction is by count alone and keeps exactly
    the newest [maxCount] entries.  The store's total covers its tracked
    files, the new file fits the byte limit on top of the total, and [Add]
    returns [nil]: then what is tracked is the old sequence with the new
    entry appended, cut down from the front to its last [maxCount]
    entries. *)
Theorem Add_keeps_newest fs d name info fs' d' :
  accounted d → 0 ≤ maxCount d →
  os_Stat fs (filepath_Join (path d) name) = inl info →
  size d + fiSize info ≤ maxSize d → maxSize d ≤ max_int →
  Add fs d name = (fs', d', Nil) →
  files d' = drop (length (files d) + 1 - Z.to_nat (maxCount d))
               (files d ++ [mkFile name (fiSize info)]).
Proof.
  intros Ha Hmc Hst Hroom Hms H.
  pose proof (os_Stat_nonneg _ _ _ Hst) as Hnn.
  unfold Add in H. rewrite Hst in H.
  destruct (register_accounted d name (fiSize info) Ha Hnn) as (Hall & Hsum & Hmax);
    [lia|].
  apply shrink_inv in H as (sz & fl & H & ->). simpl in *.
  apply shrink_loop_newest in H; try done.
  - by rewrite length_app in H.
  - destruct Ha as (Hall0 & Hsum0 & _).
    pose proof (sumSizes_nonneg _ Hall0).
    rewrite wrap64_id by (unfold in_range, min_int, max_int in *; lia). lia.
Qed.

Lemma Add_keeps_newest_witness :
  files (Add fs_ABCD d_ABC "D").1.2
  = drop (length (files d_ABC) + 1 - Z.to_nat (maxCount d_ABC))
      (files d_ABC ++ [mkFile "D" 40]).
Proof.
  apply (Add_keeps_newest fs_ABCD d_ABC "D" (mkFileInfo "D" 40 true 4)
           (Add fs_ABCD d_ABC "D").1.1).
  - unfold accounted, d_ABC, max_int. simpl.
    split; [repeat constructor; simpl; lia|lia].
  - simpl. lia.
  - vm_compute. reflexivity.
  - simpl. lia.
  - unfold max_int. simpl. lia.
  - vm_compute. reflexivity.
Defined.

(** ** Eviction settles, or fails at the head *)

(** X3.  Eviction settles: after a pass that returned [nil], another pass
    finds nothing to evict, on any disk; it returns [nil] and leaves the
    store and the disk alone. *)
Theorem shrink_settles fs d fs' d' :
  shrink fs d = (fs', d', Nil) →
  ∀ fs2, shrink fs2 d' = (fs2, d', Nil).
Proof.
  intros H fs2. apply shrink_idle. apply over_quota_false.
  by apply shrink_exit in H.
Qed.

Lemma shrink_settles_witness :
  shrink fs_empty (Add fs_ABCD d_ABC "D").1.2
  = (fs_empty, (Add fs_ABCD d_ABC "D").1.2, Nil).
Proof.
  apply (shrink_settles fs_ABCD (register d_ABC "D" 40)
           (Add fs_ABCD d_ABC "D").1.1).
  vm_compute. reflexivity.
Defined.

Lemma os_Remove_error fs p fs1 e :
  os_Remove fs p = (fs1, Some e) → fs1 = fs.
Proof.
  unfold os_Remove. intros H. repeat (case_match; simplify_eq); done.
Qed.

Lemma shrink_loop_failure dir ms mc fl : ∀ fs sz fs' sz' fl' e,
  shrink_loop dir ms mc fs sz fl = (fs', (sz', fl'), Error e) →
  ∃ f rest, fl' = f :: rest ∧ os_IsNotExist e = false ∧
            os_Remove fs' (filepath_Join dir (Name f)) = (fs', Some e) ∧
            over_quota ms mc sz' fl' = true.
Proof.
  induction fl as [|f rest IH]; intros fs sz fs' sz' fl' e H; simpl in H.
  - destruct (over_quota ms mc sz []); by simplify_eq.
  - destruct (over_quota ms mc sz (f :: rest)) eqn:Hq; [|by simplify_eq].
    destruct (os_Remove fs _) as [fs1 [err|]] eqn:Hrm; [|eauto].
    destruct (negb (os_IsNotExist err)) eqn:Hne; [|eauto].
    simplify_eq. apply negb_true_iff in Hne.
    pose proof (os_Remove_error _ _ _ _ Hrm) as ->.
    exists f, rest. done.
Qed.

Lemma last_drop_snoc {A} (l : list A) x k :
  drop k (l ++ [x]) = [] ∨ last (drop k (l ++ [x])) = Some x.
Proof.
  destruct (decide (k ≤ length l)%nat) as [Hk|Hk].
  - right. rewrite drop_app_le by done. apply last_snoc.
  - left. apply drop_ge. rewrite length_app. simpl. lia.
Qed.

Lemma Add_last_or_empty fs d name info fs' d' st :
  os_Stat fs (filepath_Join (path d) name) = inl info →
  Add fs d name = (fs', d', st) →
  files d' = [] ∨ last (files d') = Some (mkFile name (fiSize info)).
Proof.
  intros Hst H. unfold Add in H. rewrite Hst in H.
  apply shrink_drop in H as [k Hk]. rewrite register_files in Hk.
  rewrite Hk. apply last_drop_snoc.
Qed.


(** X4.  A new entry is the newest or gone.  After an [Add] that got past
    the stat, whatever it returned, either nothing is tracked or the entry
    just added is the last of the tracked sequence; the sequence grew by
    one entry at most, and [List] gives a suffix of the former names
    followed by the new one. *)
Theorem Add_newest_or_empty fs d name info fs' d' st :
  os_Stat fs (filepath_Join (path d) name) = inl info →
  Add fs d name = (fs', d', st) →
  (files d' = [] ∨ last (files d') = Some (mkFile name (fiSize info))) ∧
  len (files d') ≤ len (files d) + 1 ∧
  List d' `suffix_of` List d ++ [name].
Proof.
  intros Hst H. unfold Add in H. rewrite Hst in H.
  apply shrink_drop in H as [k Hk]. rewrite register_files in Hk.
  rewrite Hk. split; [apply last_drop_snoc|]. split.
  - unfold len. rewrite length_drop, length_app. simpl. lia.
  - rewrite !List_names, Hk.
    replace (map Name (files d) ++ [name])
      with (map Name (files d ++ [mkFile name (fiSize info)]))
      by (by rewrite map_app).
    rewrite <- (take_drop k (files d ++ _)) at 2.
    rewrite map_app. apply suffix_app_r. done.
Qed.

Lemma Add_newest_or_empty_witness :
  (files (Add fs_ABCD d_ABC "D").1.2 = [] ∨
   last (files (Add fs_ABCD d_ABC "D").1.2) = Some (mkFile "D" 40)) ∧
  len (files (Add fs_ABCD d_ABC "D").1.2) ≤ len (files d_ABC) + 1 ∧
  List (Add fs_ABCD d_ABC "D").1.2 `suffix_of` List d_ABC ++ ["D"].
Proof.
  apply (Add_newest_or_empty fs_ABCD d_ABC "D" (mkFileInfo "D" 40 true 4)
           (Add fs_ABCD d_ABC "D").1.1 _ (Add fs_ABCD d_ABC "D").2).
  - vm_compute. reflexivity.
  - by destruct (Add fs_ABCD d_ABC "D") as [[? ?] ?].
Defined.

(** X5.  An [Add] whose eviction fails has registered the file all the
    same.  When [Add] returns an error after the stat succeeded, the new
    entry is tracked, as the newest; the oldest tracked entry is the one
    whose file could not be removed, for a reason other than its absence,
    and removing it again from the disk [Add] left fails the same way; the
    store is left over quota. *)
Theorem Add_failed_eviction fs d name info fs' d' e :
  os_Stat fs (filepath_Join (path d) name) = inl info →
  Add fs d name = (fs', d', Error e) →
  last (files d') = Some (mkFile name (fiSize info)) ∧
  os_IsNotExist e = false ∧
  over_quota (maxSize d') (maxCount d') (size d') (files d') = true ∧
  ∃ f rest, files d' = f :: rest ∧
            os_Remove fs' (filepath_Join (path d') (Name f)) = (fs', Some e).
Proof.
  intros Hst H.
  destruct (Add_last_or_empty _ _ _ _ _ _ _ Hst H) as [Hl|Hl].
  - unfold Add in H. rewrite Hst in H.
    apply shrink_inv in H as (sz & fl & H & ->). simpl in Hl. subst fl.
    apply shrink_loop_failure in H as (f & rest & ? & _). done.
  - split; [done|]. unfold Add in H. rewrite Hst in H.
    apply shrink_inv in H as (sz & fl & H & ->). simpl.
    apply shrink_loop_failure in H as (f & rest & -> & Hne & Hrm & Hq).
    eauto 10.
Qed.

Lemma Add_failed_eviction_witness :
  last (files (Add fs_ABCD_pinned d_ABC "D").1.2) = Some (mkFile "D" 40) ∧
  os_IsNotExist EACCES = false ∧
  over_quota 100 3 (size (Add fs_ABCD_pinned d_ABC "D").1.2)
    (files (Add fs_ABCD_pinned d_ABC "D").1.2) = true ∧
  ∃ f rest, files (Add fs_ABCD_pinned d_ABC "D").1.2 = f :: rest ∧
            os_Remove (Add fs_ABCD_pinned d_ABC "D").1.1
              (filepath_Join tmpDir (Name f))
            = ((Add fs_ABCD_pinned d_ABC "D").1.1, Some EACCES).
Proof.
  apply (Add_failed_eviction fs_ABCD_pinned d_ABC "D"
           (mkFileInfo "D" 40 true 4)).
  - vm_compute. reflexivity.
  - vm_compute. reflexivity.
Defined.

(** ** Opening a store *)



Lemma listing_regular es :
  (∀ n nd, es !! n = Some nd → isRegular nd = true) →
  Forall (λ e, fiRegular e = true) (listing es).
Proof.
  intros H. apply Forall_fmap, Forall_forall. intros [n nd] Hin.
  apply elem_of_map_to_list in Hin. simpl. eauto.
Qed.

Lemma listing_named es :
  es !! "" = None → Forall (λ e, fiName e ≠ "") (listing es).
Proof.
  intros H. apply Forall_fmap, Forall_forall. intros [n nd] Hin.
  apply elem_of_map_to_list in Hin. simpl. intros ->. congruence.
Qed.

(** X7.  Opening converges from the old end.  Over a readable directory
    of regular files, a store that [OpenLimitedDir] hands out tracks the
    files in ascending order of modification time, less a prefix (the
    oldest ones); the files of exactly that prefix have been deleted from
    the directory, nothing else was touched, and what remains is within
    both limits or nothing. *)
Theorem Open_converges fs dir ms mc es fs' d :
  state fs = Dir true es → root fs = dir → es !! "" = None →
  (∀ n nd, es !! n = Some nd → isRegular nd = true) →
  OpenLimitedDir fs dir ms mc = (fs', Some d, Nil) →
  ∃ sorted k,
    sorted ≡ₚ listing es ∧ Sorted by_mtime sorted ∧
    files d = drop k (map to_File sorted) ∧
    fs' = mkFS dir (Dir true (deleted_all es (take k (map to_File sorted)))) ∧
    (files d = [] ∨ within_quota d).
Proof.
  intros Hs Hr Hno Hreg H.
  assert (files d = [] ∨ within_quota d) as Hq
    by (eapply settled_quota, settled_open, H).
  apply Open_inv in H as (fs1 & entries0 & fl & total & Hmk & Hrd & Hsc & Hsh).
  unfold os_MkdirAll in Hmk. rewrite decide_True, Hs in Hmk by done.
  simplify_eq.
  unfold ioutil_ReadDir in Hrd. rewrite Hs, decide_True in Hrd by done.
  simplify_eq. fold (listing es) in Hsh, Hsc.
  set (byname := sort_Sort _ (listing es)) in *.
  set (sorted := sort_Sort sortedFiles_Less byname) in *.
  assert (sorted ≡ₚ listing es) as Hp.
  { unfold sorted, byname. by rewrite !sort_Sort_Permutation. }
  rewrite scan_spec in Hsc. simplify_eq.
  assert (map slot sorted = map to_File sorted) as Hslot.
  { apply map_ext_Forall. rewrite Hp.
    eapply Forall_impl; [by apply listing_regular|].
    intros e He. unfold slot, to_File. by rewrite He. }
  rewrite Hslot in Hsh.
  apply (shrink_disk _ _ true es) in Hsh as (k & _ & Hk & ->); try done.
  - exists sorted, k. split; [done|]. split; [apply sort_Sort_by_mtime|].
    done.
  - simpl. apply Forall_fmap. rewrite Hp.
    eapply Forall_impl; [by apply listing_named|]. done.
Qed.

Lemma Open_converges_witness :
  ∃ sorted k,
    sorted ≡ₚ listing es_over ∧ Sorted by_mtime sorted ∧
    files (mkLimitedDir tmpDir 5 4
             [mkFile "13-2" 2; mkFile "14-1" 1; mkFile "15-2" 2] 5)
      = drop k (map to_File sorted) ∧
    (OpenLimitedDir fs_over tmpDir 5 4).1.1
      = mkFS tmpDir (Dir true (deleted_all es_over (take k (map to_File sorted)))) ∧
    (files (mkLimitedDir tmpDir 5 4
             [mkFile "13-2" 2; mkFile "14-1" 1; mkFile "15-2" 2] 5) = [] ∨
     within_quota (mkLimitedDir tmpDir 5 4
             [mkFile "13-2" 2; mkFile "14-1" 1; mkFile "15-2" 2] 5)).
Proof.
  apply (Open_converges fs_over tmpDir 5 4 es_over).
  - reflexivity.
  - reflexivity.
  - vm_compute. reflexivity.
  - intros n nd. unfold es_over.
    rewrite !lookup_insert, lookup_empty.
    repeat case_decide; intros ?; by simplify_eq.
  - vm_compute. reflexivity.
Defined.

(** ** The byte limit on what is tracked *)

(** X8.  The tracked files respect the byte limit.  When the running total
    covers the tracked sizes and the addition does not overflow, an [Add]
    that returns [nil] leaves a store whose total still covers the tracked
    sizes, so that the sizes of the tracked files add up to at most
    [maxSize], unless nothing is tracked; and no more than [maxCount]
    files are tracked. *)
Theorem Add_tracked_bytes_within_limit fs d name info fs' d' :
  accounted d →
  os_Stat fs (filepath_Join (path d) name) = inl info →
  size d + fiSize info ≤ max_int →
  Add fs d name = (fs', d', Nil) →
  accounted d' ∧
  (files d' = [] ∨ sumSizes (files d') ≤ maxSize d) ∧
  len (files d') ≤ maxCount d.
Proof.
  intros Ha Hst Hov H.
  pose proof (os_Stat_nonneg _ _ _ Hst) as Hnn.
  pose proof (Add_accounted _ _ _ _ _ _ _ Ha Hst Hnn Hov H) as Ha'.
  pose proof (Add_params _ _ _ _ _ _ H) as (_ & Hms & Hmc).
  split; [done|]. unfold Add in H. rewrite Hst in H.
  apply shrink_exit in H as [Hq Hc]. rewrite <- Hms, <- Hmc.
  split; [|done]. destruct Hq as [Hq|Hq]; [right|by left].
  destruct Ha' as (_ & Hsum & _). lia.
Qed.

Lemma Add_tracked_bytes_within_limit_witness :
  accounted (Add fs_six d_five "10-6").1.2 ∧
  (files (Add fs_six d_five "10-6").1.2 = [] ∨
   sumSizes (files (Add fs_six d_five "10-6").1.2) ≤ maxSize d_five) ∧
  len (files (Add fs_six d_five "10-6").1.2) ≤ maxCount d_five.
Proof.
  apply (Add_tracked_bytes_within_limit fs_six d_five "10-6"
           (mkFileInfo "10-6" 6 true 1) (Add fs_six d_five "10-6").1.1).
  - exact accounted_five.
  - vm_compute. reflexivity.
  - unfold max_int. simpl. lia.
  - vm_compute. reflexivity.
Defined.

(** X9.  The total is exact while nothing disappears.  In the managed
    directory, when the total equals the sum of the tracked sizes, the
    tracked names and the new one are distinct, not empty, and all on
    disk, and the addition does not overflow, [Add] leaves the total equal
    to the sum of the tracked sizes, whatever it returns. *)
Theorem Add_total_exact fs d name info r es fs' d' st :
  state fs = Dir r es → root fs = path d →
  on_disk es (files d ++ [mkFile name (fiSize info)]) →
  Forall (λ f, 0 ≤ Size f) (files d) →
  size d = sumSizes (files d) →
  os_Stat fs (filepath_Join (path d) name) = inl info →
  size d + fiSize info ≤ max_int →
  Add fs d name = (fs', d', st) →
  size d' = sumSizes (files d').
Proof.
  intros Hs Hr Hon Hnn Hsz Hst Hov H.
  pose proof (os_Stat_nonneg _ _ _ Hst) as Hnew.
  pose proof (sumSizes_nonneg _ Hnn) as Hsum.
  unfold Add in H. rewrite Hst in H.
  apply shrink_inv in H as (sz & fl & H & ->). simpl in *.
  rewrite <- Hr in H.
  eapply shrink_loop_exact in H; try done.
  - apply Forall_app. split; [done|]. by apply Forall_singleton.
  - rewrite sumSizes_app. simpl.
    rewrite wrap64_id by (unfold in_range, min_int, max_int in *; lia). lia.
  - rewrite wrap64_id by (unfold in_range, min_int, max_int in *; lia). lia.
Qed.

Lemma Add_total_exact_witness :
  size (Add fs_ABCD d_ABC "D").1.2
  = sumSizes (files (Add fs_ABCD d_ABC "D").1.2).
Proof.
  apply (Add_total_exact fs_ABCD d_ABC "D" (mkFileInfo "D" 40 true 4)
           true es_ABCD (Add fs_ABCD d_ABC "D").1.1 _
           (Add fs_ABCD d_ABC "D").2).
  - vm_compute. reflexivity.
  - reflexivity.
  - split.
    + apply (bool_decide_unpack _). vm_compute. exact I.
    + repeat constructor; try discriminate; vm_compute; eauto.
  - repeat constructor; simpl; lia.
  - reflexivity.
  - vm_compute. reflexivity.
  - unfold max_int. simpl. lia.
  - by destruct (Add fs_ABCD d_ABC "D") as [[? ?] ?].
Defined.

(** X10.  [Add] never panics on a store that was handed out: whatever the
    disk and the name, it returns, with [nil] or with an error.  (The only
    panic of the code, indexing an empty slice in [shrink], needs a
    negative count limit, and [OpenLimitedDir] has panicked on that
    already.) *)
Theorem Add_never_panics d :
  reachable d → ∀ fs name, (Add fs d name).2 ≠ Panic.
Proof.
  intros Hr fs name.
  destruct (Add_returns fs d name Hr) as (fs' & d' & st & H & Hst).
  by rewrite H.
Qed.

Lemma Add_never_panics_witness :
  (Add fs_ABCD_pinned d_five "D").2 ≠ Panic.
Proof.
  apply (Add_never_panics d_five (settled_reachable _ settled_five)).
Defined.

(** ** The order of the listing *)

(** X11.  [sortedFiles.Less] is a strict weak order, as [sort.Sort]
    requires: no entry is less than itself, it is transitive, and so is
    "neither is less" (the entries of equal modification time); it holds
    exactly when the first entry is strictly older. *)
Theorem sortedFiles_Less_strict_weak :
  (∀ a, sortedFiles_Less a a = false) ∧
  (∀ a b c, sortedFiles_Less a b = true → sortedFiles_Less b c = true →
            sortedFiles_Less a c = true) ∧
  (∀ a b c, sortedFiles_Less a b = false → sortedFiles_Less b a = false →
            sortedFiles_Less b c = false → sortedFiles_Less c b = false →
            sortedFiles_Less a c = false ∧ sortedFiles_Less c a = false) ∧
  (∀ a b, sortedFiles_Less a b = true ↔ fiModTime a < fiModTime b).
Proof.
  assert (∀ a b, sortedFiles_Less a b = false ↔ fiModTime b ≤ fiModTime a) as Hf.
  { intros a b. rewrite <- not_true_iff_false, sortedFiles_Less_lt. lia. }
  repeat split.
  - intros a. apply Hf. lia.
  - intros a b c. rewrite !sortedFiles_Less_lt. lia.
  - revert H H0 H1 H2. rewrite !Hf. lia.
  - revert H H0 H1 H2. rewrite !Hf. lia.
  - by apply sortedFiles_Less_lt.
  - by apply sortedFiles_Less_lt.
Qed.

Lemma sortedFiles_Less_strict_weak_witness :
  sortedFiles_Less (mkFileInfo "a" 1 true 1) (mkFileInfo "c" 1 true 3) = true ∧
  sortedFiles_Less (mkFileInfo "a" 1 true 2) (mkFileInfo "c" 1 true 2) = false.
Proof.
  destruct sortedFiles_Less_strict_weak as (_ & Htr & Heq & _). split.
  - apply (Htr _ (mkFileInfo "b" 1 true 2)); reflexivity.
  - apply (Heq _ (mkFileInfo "b" 1 true 2)); reflexivity.
Defined.

(** ** The generated name *)

Lemma chars_app a b : chars (a +:+ b) = chars a ++ chars b.
Proof. induction a as [|c a IH]; simpl; [done|]. by rewrite IH. Qed.

Lemma hex_digit_char n : hex_digit n ∈ hex_chars.
Proof.
  unfold hex_digit, hex_chars. repeat case_match;
    apply (bool_decide_unpack _); vm_compute; exact I.
Qed.

Lemma nibble_cases (n : N) :
  (n < 16)%N → n ∈ map N.of_nat (seq 0 16).
Proof.
  intros Hn. apply list_elem_of_fmap. exists (N.to_nat n).
  split; [by rewrite N2Nat.id|]. apply elem_of_seq. lia.
Qed.

Lemma hex_digit_inj n m :
  (n < 16)%N → (m < 16)%N → hex_digit n = hex_digit m → n = m.
Proof.
  intros Hn Hm.
  assert (Forall (λ n, Forall (λ m, hex_digit n = hex_digit m → n = m)
                         (map N.of_nat (seq 0 16)))
                 (map N.of_nat (seq 0 16))) as H
    by (apply (bool_decide_unpack _); vm_compute; exact I).
  rewrite Forall_forall in H. specialize (H n (nibble_cases n Hn)).
  rewrite Forall_forall in H. apply H. by apply nibble_cases.
Qed.

Lemma byte_nibbles b :
  (Byte.to_N b / 16 < 16)%N ∧ (Byte.to_N b mod 16 < 16)%N ∧
  Byte.to_N b = (16 * (Byte.to_N b / 16) + Byte.to_N b mod 16)%N.
Proof.
  pose proof (Byte.to_N_bounded b) as Hb.
  split; [apply N.Div0.div_lt_upper_bound; lia|].
  split; [apply N.mod_lt; lia|]. apply N.div_mod. lia.
Qed.

Lemma byte_of_nibbles b1 b2 :
  (Byte.to_N b1 / 16 = Byte.to_N b2 / 16)%N →
  (Byte.to_N b1 mod 16 = Byte.to_N b2 mod 16)%N → b1 = b2.
Proof.
  intros Hd Hm.
  destruct (byte_nibbles b1) as (_ & _ & H1).
  destruct (byte_nibbles b2) as (_ & _ & H2).
  assert (Byte.to_N b1 = Byte.to_N b2) as Heq by lia.
  pose proof (Byte.of_to_N b1) as Ho1. pose proof (Byte.of_to_N b2) as Ho2.
  rewrite Heq in Ho1. congruence.
Qed.

Lemma hex_digits buf : Forall (λ c, c ∈ hex_chars) (chars (hex buf)).
Proof.
  induction buf as [|b buf IH]; simpl; [constructor|].
  apply Forall_cons. split; [apply hex_digit_char|].
  apply Forall_cons. split; [apply hex_digit_char|exact IH].
Qed.

Lemma length_chars s : length (chars s) = String.length s.
Proof. induction s as [|c s IH]; simpl; [done|]. by rewrite IH. Qed.

Lemma hex_length buf : length (chars (hex buf)) = (2 * length buf)%nat.
Proof. induction buf as [|b buf IH]; simpl; [done|]. rewrite IH. lia. Qed.

(** X12.  The name [save] generates is a plain file name: for [n] random
    bytes it has [2n] hexadecimal digits (lower case) followed by ".png",
    so 36 characters for the 16 bytes of [buf]; it is never empty and
    holds no path separator, so that [filepath.Join] keeps it inside the
    managed directory. *)
Theorem candidate_name_shape buf :
  let name := hex buf +:+ ".png" in
  String.length name = (2 * length buf + 4)%nat ∧
  (∃ digits, chars name = digits ++ chars ".png" ∧
             Forall (λ c, c ∈ hex_chars) digits) ∧
  ("/"%char ∉ chars name) ∧
  name ≠ "".
Proof.
  intros name. unfold name.
  split; [|split; [|split]].
  - rewrite <- length_chars, chars_app, length_app, hex_length. simpl. lia.
  - exists (chars (hex buf)). split; [apply chars_app|apply hex_digits].
  - rewrite chars_app. intros [Hin|Hin]%elem_of_app.
    + pose proof (hex_digits buf) as Hd.
      rewrite Forall_forall in Hd. specialize (Hd _ Hin).
      revert Hd. apply (bool_decide_unpack _). vm_compute. exact I.
    + revert Hin. apply (bool_decide_unpack _). vm_compute. exact I.
  - apply png_name_not_empty.
Qed.

Lemma hex_png_inj buf1 buf2 :
  hex buf1 +:+ ".png" = hex buf2 +:+ ".png" → buf1 = buf2.
Proof.
  assert (∀ n s, String (hex_digit n) s ≠ ".png") as Hdot.
  { intros n s H. injection H as H _.
    pose proof (hex_digit_char n) as Hc. rewrite H in Hc.
    revert Hc. apply (bool_decide_unpack _). vm_compute. exact I. }
  revert buf2. induction buf1 as [|b1 buf1 IH]; intros [|b2 buf2] H; simpl in H.
  - done.
  - symmetry in H. by apply Hdot in H.
  - by apply Hdot in H.
  - injection H as H1 H2 H3.
    destruct (byte_nibbles b1) as (? & ? & _).
    destruct (byte_nibbles b2) as (? & ? & _).
    apply hex_digit_inj in H1; [|done..]. apply hex_digit_inj in H2; [|done..].
    f_equal; [by apply byte_of_nibbles|by apply IH].
Qed.

(** X13.  Names collide only when the random bytes do: different buffers,
    of any lengths, give different names, hence different paths in the
    managed directory. *)
Theorem candidate_name_injective dir buf1 buf2 :
  buf1 ≠ buf2 →
  hex buf1 +:+ ".png" ≠ hex buf2 +:+ ".png" ∧
  filepath_Join dir (hex buf1 +:+ ".png")
    ≠ filepath_Join dir (hex buf2 +:+ ".png").
Proof.
  intros Hne.
  assert (hex buf1 +:+ ".png" ≠ hex buf2 +:+ ".png") as Hn
    by (intros H; by apply Hne, hex_png_inj).
  split; [done|]. intros H. apply Hn.
  pose proof (locate_Join_mk dir Absent _ (png_name_not_empty (hex buf1))) as H1.
  pose proof (locate_Join_mk dir Absent _ (png_name_not_empty (hex buf2))) as H2.
  rewrite H in H1. congruence.
Qed.

Lemma candidate_name_injective_witness :
  hex [Byte.x01] +:+ ".png" ≠ hex [Byte.x10] +:+ ".png" ∧
  filepath_Join tmpDir (hex [Byte.x01] +:+ ".png")
    ≠ filepath_Join tmpDir (hex [Byte.x10] +:+ ".png").
Proof. apply (candidate_name_injective tmpDir [Byte.x01] [Byte.x10]). discriminate. Defined.

(** ** [save], step by step *)

Lemma os_Create_fresh rt r es name now fs1 :
  name ≠ "" →
  os_Create now (mkFS rt (Dir r es)) (filepath_Join rt name) = (fs1, None) →
  fs1 = mkFS rt (Dir r (<[name := mkNode true 0 now false]> es)).
Proof.
  intros Hn. unfold os_Create. simpl. rewrite (locate_Join_mk rt _ name Hn).
  intros H. repeat (case_match; simplify_eq); done.
Qed.

Lemma os_Write_at rt r es name n now written :
  name ≠ "" →
  os_Write now (mkFS rt (Dir r (<[name := n]> es))) (filepath_Join rt name) written
  = mkFS rt (Dir r (<[name := mkNode (isRegular n) written now (pinned n)]> es)).
Proof.
  intros Hn. unfold os_Write. simpl. rewrite (locate_Join_mk rt _ name Hn).
  by rewrite lookup_insert_eq, insert_insert_eq.
Qed.

Lemma os_Stat_at rt r es name n :
  name ≠ "" →
  os_Stat (mkFS rt (Dir r (<[name := n]> es))) (filepath_Join rt name)
  = inl (info_of name n).
Proof.
  intros Hn. unfold os_Stat. simpl. rewrite (locate_Join_mk rt _ name Hn).
  by rewrite lookup_insert_eq.
Qed.

Section save_facts.

Variable png_Decode : list Byte.byte → Img.Image + error.
Variable png_Encode : Img.RGBAImage → list Byte.byte + error.

Lemma fixImage_Nil now fs fp rd padding fault fs2 :
  fixImage png_Decode png_Encode now fs fp rd padding fault = (fs2, Nil) →
  ∃ src out,
    png_Decode rd = inl src ∧ png_Encode (pad src padding) = inl out ∧
    fault = None ∧ fs2 = os_Write now fs fp (N.of_nat (length out)).
Proof.
  unfold fixImage. intros H. repeat (case_match; simplify_eq).
  by eexists _, _.
Qed.

(** [save] as far as the commit: the disk on which [Add] is called. *)
Lemma save_commit fs d maxImgSize req r es buf fs1 fs2 :
  state fs = Dir r es → root fs = path d →
  rand_Read req = inl buf →
  let name := hex buf +:+ ".png" in
  let p := filepath_Join (Path d) name in
  os_Create (arrival req) fs p = (fs1, None) →
  fixImage png_Decode png_Encode (arrival req) fs1 p
    (io_LimitedReader (Body req) maxImgSize) 20 (write_fault req) = (fs2, Nil) →
  ∃ src out,
    png_Decode (io_LimitedReader (Body req) maxImgSize) = inl src ∧
    png_Encode (pad src 20) = inl out ∧ write_fault req = None ∧
    fs2 = mkFS (root fs)
            (Dir r (<[name := mkNode true (N.of_nat (length out))
                                 (arrival req) false]> es)) ∧
    os_Stat fs2 p = inl (mkFileInfo name (Z.of_nat (length out)) true (arrival req)).
Proof.
  intros Hs Hr Hrand name p Hc Hfix.
  assert (name ≠ "") as Hn by apply png_name_not_empty.
  assert (fs = mkFS (path d) (Dir r es)) as Hfs
    by (destruct fs; simpl in *; by subst).
  unfold p, Path in *. rewrite Hfs in Hc.
  apply os_Create_fresh in Hc; [|done]. subst fs1.
  apply fixImage_Nil in Hfix as (src & out & Hd & He & Hw & ->).
  exists src, out. rewrite os_Write_at by done. simpl.
  rewrite Hr. split; [done|]. split; [done|]. split; [done|].
  split; [done|]. rewrite os_Stat_at by done.
  unfold info_of. simpl. by rewrite nat_N_Z.
Qed.

(** X14.  What a successful [save] has done.  In the managed directory,
    when [save] returns [nil]: the stream decoded, the canvas encoded and
    no write, close or response fault occurred; the reference written to
    the response is [imgURL] followed by the generated name; the store is
    what [Add] returned for that name on the disk holding the committed
    file, whose length is that of the encoded canvas; and that entry, with
    that length, is the newest tracked one, unless nothing is tracked. *)
Theorem save_success imgURL fs d maxImgSize req r es fs' d' public :
  state fs = Dir r es → root fs = path d →
  save png_Decode png_Encode imgURL fs d maxImgSize req = (fs', d', public, Nil) →
  ∃ buf src out,
    rand_Read req = inl buf ∧
    png_Decode (io_LimitedReader (Body req) maxImgSize) = inl src ∧
    png_Encode (pad src 20) = inl out ∧
    write_fault req = None ∧ close_fault req = None ∧ reply_fault req = None ∧
    let name := hex buf +:+ ".png" in
    public = imgURL +:+ name ∧
    Add (mkFS (root fs)
           (Dir r (<[name := mkNode true (N.of_nat (length out))
                                (arrival req) false]> es))) d name
      = (fs', d', Nil) ∧
    (files d' = [] ∨
     last (files d') = Some (mkFile name (Z.of_nat (length out)))).
Proof.
  intros Hs Hr H. unfold save in H.
  destruct (rand_Read req) as [buf|e] eqn:Hrand; [|by simplify_eq].
  destruct (os_Create _ _ _) as [fs1 [e|]] eqn:Hc; [by simplify_eq|].
  destruct (fixImage _ _ _ _ _ _ _ _) as [fs2 [|e|]] eqn:Hfix;
    [|by simplify_eq..].
  destruct (close_fault req) as [e|] eqn:Hcl; [by simplify_eq|].
  destruct (Add fs2 d _) as [[fs3 d3] [|e|]] eqn:Hadd; [|by simplify_eq..].
  destruct (reply_fault req) as [e|] eqn:Hrp; simplify_eq.
  destruct (save_commit _ _ maxImgSize _ _ _ _ _ _ Hs Hr Hrand Hc Hfix)
    as (src & out & Hd & He & Hw & -> & Hst).
  exists buf, src, out. do 6 (split; [done|]). cbv zeta.
  split; [done|]. split; [done|].
  exact (Add_last_or_empty _ _ _ _ _ _ _ Hst Hadd).
Qed.

End save_facts.

Lemma save_success_witness :
  ∃ buf src out,
    rand_Read (req_at 7) = inl buf ∧
    toy_Decode (io_LimitedReader (Body (req_at 7)) 10) = inl src ∧
    toy_Encode (pad src 20) = inl out ∧
    write_fault (req_at 7) = None ∧ close_fault (req_at 7) = None ∧
    reply_fault (req_at 7) = None ∧
    let name := hex buf +:+ ".png" in
    (save toy_Decode toy_Encode "/saved/" fs_empty d_three 10 (req_at 7)).1.2
      = "/saved/" +:+ name ∧
    Add (mkFS (root fs_empty)
           (Dir true (<[name := mkNode true (N.of_nat (length out)) 7 false]> ∅)))
        d_three name
      = ((save toy_Decode toy_Encode "/saved/" fs_empty d_three 10 (req_at 7)).1.1.1,
         (save toy_Decode toy_Encode "/saved/" fs_empty d_three 10 (req_at 7)).1.1.2,
         Nil) ∧
    (files (save toy_Decode toy_Encode "/saved/" fs_empty d_three 10 (req_at 7)).1.1.2
       = [] ∨
     last (files (save toy_Decode toy_Encode "/saved/" fs_empty d_three 10
                    (req_at 7)).1.1.2)
       = Some (mkFile name (Z.of_nat (length out)))).
Proof.
  apply (save_success toy_Decode toy_Encode "/saved/" fs_empty d_three 10
           (req_at 7) true ∅).
  - reflexivity.
  - reflexivity.
  - vm_compute. reflexivity.
Defined.

Section save_after_commit.

Variable png_Decode : list Byte.byte → Img.Image + error.
Variable png_Encode : Img.RGBAImage → list Byte.byte + error.


(** X16.  The size cap is a cut, not a check.  [save] reads the body
    through [io.LimitedReader]: two requests whose bodies agree on their
    first [maxImgSize] bytes are treated alike in every respect, so a body
    longer than the cap is handled exactly as its first [maxImgSize]
    bytes, and with a cap that is not positive the decoder is given the
    empty stream. *)
Theorem save_reads_at_most imgURL fs d maxImgSize req :
  (∀ body,
     io_LimitedReader (Body req) maxImgSize = io_LimitedReader body maxImgSize →
     save png_Decode png_Encode imgURL fs d maxImgSize (with_Body req body)
     = save png_Decode png_Encode imgURL fs d maxImgSize req) ∧
  save png_Decode png_Encode imgURL fs d maxImgSize
    (with_Body req (io_LimitedReader (Body req) maxImgSize))
  = save png_Decode png_Encode imgURL fs d maxImgSize req ∧
  (maxImgSize ≤ 0 →
   save png_Decode png_Encode imgURL fs d maxImgSize (with_Body req [])
   = save png_Decode png_Encode imgURL fs d maxImgSize req).
Proof.
  assert (∀ body,
     io_LimitedReader (Body req) maxImgSize = io_LimitedReader body maxImgSize →
     save png_Decode png_Encode imgURL fs d maxImgSize (with_Body req body)
     = save png_Decode png_Encode imgURL fs d maxImgSize req) as H.
  { intros body Hb. unfold save, with_Body. simpl. by rewrite Hb. }
  split; [done|]. split.
  - apply H. unfold io_LimitedReader. by rewrite take_take, Nat.min_id.
  - intros Hn. apply H. unfold io_LimitedReader.
    replace (Z.to_nat maxImgSize) with 0%nat by lia. done.
Qed.




(** X18.  Accepted requests keep their distance.  Over any sequence of
    requests handled one after the other, in whatever order their clock
    readings come, every request that is let in arrives at least
    [minDelay] after the one let in before it, and the first at least
    [minDelay] after the stored time the server started from, whether or
    not their images could be saved.  With a delay that is not negative
    the stored time never moves back. *)
Theorem serve_spaced minDelay imgURL maxImgSize reqs : ∀ s s' rps,
  min_int < minDelay →
  serve png_Decode png_Encode minDelay imgURL maxImgSize s reqs = (s', rps) →
  spaced minDelay (lastTime s) (let_in reqs rps) ∧
  lastTime s' = default (lastTime s) (last (let_in reqs rps)) ∧
  (0 ≤ minDelay → lastTime s ≤ lastTime s').
Proof.
  induction reqs as [|req rest IH]; intros s s' rps Hm H; simpl in H.
  - simplify_eq. simpl. split; [done|]. split; [done|lia].
  - destruct (handler _ _ _ _ _ _ _) as [s1 rp] eqn:Hh.
    destruct (serve _ _ _ _ _ _ _) as [s2 rps2] eqn:Hs. simplify_eq.
    destruct (IH _ _ _ Hm Hs) as (Hsp & Hlast & Hmono).
    apply handler_inv in Hh as [(_ & -> & ->)|[Hc Hp]]; [done|].
    apply process_lastTime in Hp as [Hl Hrp]. simpl in Hl.
    apply Z.ltb_ge in Hc.
    assert (minDelay ≤ arrival req - lastTime s) as Hgap
      by (unfold time_Sub, min_int, max_int in *; lia).
    assert (let_in (req :: rest) (rp :: rps2)
            = arrival req :: let_in rest rps2) as ->
      by (simpl; by destruct rp).
    rewrite Hl in *. simpl. split; [split; [exact Hgap|exact Hsp]|].
    split; [|intros; lia].
    rewrite Hlast. destruct (let_in rest rps2) as [|z l]; [done|].
    change (last (arrival req :: z :: l)) with (last (z :: l)).
    destruct (last (z :: l)) eqn:E; [done|]. by apply last_None in E.
Qed.

End save_after_commit.


Lemma save_reads_at_most_witness :
  save toy_Decode toy_Encode "/saved/" fs_empty d_three 1
    (with_Body (req_at 7) [Byte.x2a; Byte.x00; Byte.x00])
  = save toy_Decode toy_Encode "/saved/" fs_empty d_three 1 (req_at 7).
Proof.
  destruct (save_reads_at_most toy_Decode toy_Encode "/saved/" fs_empty
              d_three 1 (req_at 7)) as (H & _ & _).
  apply H. reflexivity.
Defined.


Lemma serve_spaced_witness :
  spaced five_seconds 0 [6000000000; 12000000000] ∧
  lastTime (serve toy_Decode toy_Encode five_seconds "/saved/" 10
              s_start three_requests).1 = 12000000000.
Proof.
  destruct (serve_spaced toy_Decode toy_Encode five_seconds "/saved/" 10
              three_requests s_start
              (serve toy_Decode toy_Encode five_seconds "/saved/" 10
                 s_start three_requests).1
              (serve toy_Decode toy_Encode five_seconds "/saved/" 10
                 s_start three_requests).2) as (H1 & H2 & _).
  - unfold min_int, five_seconds. lia.
  - apply surjective_pairing.
  - split; [exact H1|exact H2].
Defined.

(** ** What the mutex of the gate does achieve *)

Lemma arrivals_respected now last n : mutex_respected (arrivals now last n).
Proof.
  split; simpl; [|done]. intros g p Hp.
  apply lookup_replicate in Hp as [-> _]. simpl. split; done.
Qed.

Lemma critical_moves minDelay g sh p :
  in_critical p = true → is_Some (step minDelay g sh p).
Proof. destruct p; simpl; intros H; try done; eauto. Qed.

Lemma step_mutex minDelay g sh p sh' p' :
  step minDelay g sh p = Some (sh', p') →
  (in_critical p = true ↔ lastTimeMutex sh = Some g) →
  (in_critical p' = true ↔ lastTimeMutex sh' = Some g) ∧
  (∀ g', g' ≠ g → lastTimeMutex sh' = Some g' ↔ lastTimeMutex sh = Some g').
Proof.
  intros H [Hg1 Hg2].
  destruct p; simpl in H; repeat case_match; try discriminate;
    injection H as <- <-; simpl in *;
    (split; [split | intros g' Hne; split]); intros;
    first [ done | congruence | by auto
          | specialize (Hg1 eq_refl); congruence ].
Qed.

Lemma exec1_respected minDelay st e st' :
  mutex_respected st → exec1 minDelay st e = Some st' → mutex_respected st'.
Proof.
  destruct st as [sh pcs]. intros [Hinv Hex] H. unfold exec1 in H.
  destruct e as [g|dt].
  2:{ destruct (0 <=? dt); [|done]. injection H as <-. split; simpl; done. }
  destruct (pcs !! g) as [p|] eqn:Hp; [|done].
  destruct (step minDelay g sh p) as [[sh' p']|] eqn:Hstep; [|done].
  injection H as <-.
  pose proof (lookup_lt_Some _ _ _ Hp) as Hlt.
  destruct (step_mutex _ _ _ _ _ _ Hstep (Hinv g p Hp)) as [Hg' Hothers].
  simpl in *. split; simpl.
  - intros g' q Hq. destruct (decide (g' = g)) as [->|Hne].
    + rewrite list_lookup_insert_eq in Hq by done.
      injection Hq as <-. exact Hg'.
    + rewrite list_lookup_insert_ne in Hq by done.
      rewrite (Hothers g' Hne). by apply Hinv.
  - intros h Hh. destruct (decide (h = g)) as [->|Hne].
    + rewrite list_lookup_insert_eq by done. eauto.
    + rewrite list_lookup_insert_ne by done. apply Hex. by apply Hothers.
Qed.

Lemma exec_respected minDelay sched : ∀ st st',
  mutex_respected st → exec minDelay st sched = Some st' → mutex_respected st'.
Proof.
  induction sched as [|e rest IH]; intros st st' Hinv H; simpl in H.
  - by simplify_eq.
  - destruct (exec1 minDelay st e) as [st1|] eqn:H1; [|done].
    eapply IH; [|done]. by eapply exec1_respected.
Qed.

(** X19.  Mutual exclusion.  From any number of requests that have not
    started, along every schedule and whatever the clock does, at most one
    goroutine is between a [Lock] of [lastTimeMutex] and its [Unlock], and
    it is the one that holds the mutex: the reads and the writes of
    [lastTime] never overlap. *)
Theorem gate_mutual_exclusion minDelay now last n sched sh pcs :
  exec minDelay (arrivals now last n) sched = Some (sh, pcs) →
  ∀ g1 g2 p1 p2,
    pcs !! g1 = Some p1 → pcs !! g2 = Some p2 →
    in_critical p1 = true → in_critical p2 = true →
    g1 = g2 ∧ lastTimeMutex sh = Some g1.
Proof.
  intros H g1 g2 p1 p2 H1 H2 Hc1 Hc2.
  apply exec_respected in H as [Hinv _]; [|apply arrivals_respected].
  apply (Hinv _ _ H1) in Hc1. apply (Hinv _ _ H2) in Hc2.
  simpl in *. split; [congruence|done].
Qed.

Lemma gate_mutual_exclusion_witness :
  exec 5 (arrivals 10 0 2) [Run 0; Run 1; Run 0]%nat
    = Some (mkShared 10 0 (Some 0%nat), [AtRead 10; AtLock1 10]) ∧
  0%nat = 0%nat ∧ lastTimeMutex (mkShared 10 0 (Some 0%nat)) = Some 0%nat.
Proof.
  split; [vm_compute; reflexivity|].
  apply (gate_mutual_exclusion 5 10 0 2 [Run 0; Run 1; Run 0]%nat
           (mkShared 10 0 (Some 0%nat)) [AtRead 10; AtLock1 10]
           ltac:(vm_compute; reflexivity) 0%nat 0%nat (AtRead 10) (AtRead 10));
    reflexivity.
Defined.

(** X20.  The gate cannot deadlock.  At every point of every schedule, as
    long as some goroutine has not left the gate, some goroutine can
    execute its next statement: a goroutine waits only for the mutex, and
    the one holding it is never waiting. *)
Theorem gate_never_deadlocks minDelay now last n sched st :
  exec minDelay (arrivals now last n) sched = Some st →
  (∃ g p, st.2 !! g = Some p ∧ finished p = false) →
  ∃ h st', exec1 minDelay st (Run h) = Some st'.
Proof.
  intros H (g & p & Hp & Hfin).
  apply exec_respected in H as [Hinv Hex]; [|apply arrivals_respected].
  destruct st as [sh pcs]. simpl in *.
  destruct (step minDelay g sh p) as [[sh' p']|] eqn:Hstep.
  - exists g. eexists. by rewrite Hp, Hstep.
  - assert (∃ h, lastTimeMutex sh = Some h) as [h Hh].
    { destruct p; simpl in Hstep, Hfin; try done;
        repeat (case_match; simplify_eq); eauto. }
    destruct (Hex h Hh) as [q Hq].
    assert (in_critical q = true) as Hc by (by apply (Hinv h q Hq)).
    destruct (critical_moves minDelay h sh q Hc) as [[sh' q'] Hmove].
    exists h. eexists. by rewrite Hq, Hmove.
Qed.

Lemma gate_never_deadlocks_witness :
  ∃ h st',
    exec1 five_seconds
      (mkShared 10 0 (Some 0%nat), [AtRead 10; AtLock1 10]) (Run h) = Some st'.
Proof.
  apply (gate_never_deadlocks five_seconds 10 0 2 [Run 0; Run 1; Run 0]%nat).
  - vm_compute. reflexivity.
  - exists 1%nat, (AtLock1 10). split; reflexivity.
Defined.

(** ** The earlier [save] and the present one *)

Section old_and_new.

Variable png_Decode : list Byte.byte → Img.Image + error.
Variable png_Encode : Img.RGBAImage → list Byte.byte + error.

(** X21.  What the deferred cleanup changed.  In the managed directory,
    when the candidate file was created and [fixImage] or the [Close]
    that follows fails, the [save] of gribouillis.go returns the error
    and leaves the candidate on disk, under the generated name; the
    present [save] returns the same error and leaves the disk of the
    earlier one less that file. *)
Theorem old_save_leaves_candidate imgURL fs d maxImgSize req r es buf fs1 fs2 e :
  state fs = Dir r es → root fs = path d →
  rand_Read req = inl buf →
  let name := hex buf +:+ ".png" in
  let p := filepath_Join (Path d) name in
  os_Create (arrival req) fs p = (fs1, None) →
  fixImage png_Decode png_Encode (arrival req) fs1 p
    (io_LimitedReader (Body req) maxImgSize) 20 (write_fault req)
    = (fs2, Error e) ∨
  (fixImage png_Decode png_Encode (arrival req) fs1 p
     (io_LimitedReader (Body req) maxImgSize) 20 (write_fault req)
     = (fs2, Nil) ∧ close_fault req = Some e) →
  Old.save png_Decode png_Encode imgURL (Path d) fs maxImgSize req
    = (fs2, "", Error e) ∧
  (∃ info, os_Stat fs2 p = inl info ∧ fiName info = name) ∧
  save png_Decode png_Encode imgURL fs d maxImgSize req
    = ((os_Remove fs2 p).1, d, "", Error e) ∧
  os_Stat (os_Remove fs2 p).1 p = inr ENOENT.
Proof.
  intros Hs Hr Hrand name p Hc Hfail.
  assert (name ≠ "") as Hn by apply png_name_not_empty.
  assert (fs = mkFS (path d) (Dir r es)) as Hfs
    by (destruct fs; simpl in *; by subst).
  assert (holds_candidate (path d) r es name fs1) as Hc1.
  { eapply os_Create_candidate; [done|]. unfold p, Path in Hc.
    rewrite Hfs in Hc. exact Hc. }
  assert (holds_candidate (path d) r es name fs2) as Hc2.
  { destruct Hfail as [Hf|[Hf _]];
      eapply fixImage_candidate; try exact Hf; done. }
  pose proof (os_Remove_candidate _ _ _ _ Hn _ Hc2) as Hrm.
  fold (Path d) p in Hrm.
  split; [|split; [|split]].
  - unfold Old.save. rewrite Hrand. fold name p. rewrite Hc.
    by destruct Hfail as [Hf|[Hf Hcl]]; rewrite Hf, ?Hcl.
  - destruct Hc2 as (n & _ & ->). exists (info_of name n).
    unfold p, Path. by rewrite os_Stat_at.
  - unfold save. rewrite Hrand. fold name p. rewrite Hc.
    by destruct Hfail as [Hf|[Hf Hcl]]; rewrite Hf, ?Hcl.
  - rewrite Hrm. simpl. apply os_Stat_removed. done.
Qed.

(** X22.  The earlier [save] only ever adds.  In the managed directory,
    whatever it returns, every entry under another name than the
    generated one is as it was; when it returns [nil] the file of that
    name holds the encoded canvas and the reference written is [imgURL]
    followed by the name.  Nothing bounds what accumulates. *)
Theorem old_save_only_adds imgURL fs maxImgSize req r es fs' public st :
  state fs = Dir r es →
  Old.save png_Decode png_Encode imgURL (root fs) fs maxImgSize req
    = (fs', public, st) →
  ∃ es', fs' = mkFS (root fs) (Dir r es') ∧
    (∀ buf n, rand_Read req = inl buf → n ≠ hex buf +:+ ".png" →
              es' !! n = es !! n) ∧
    (∀ n, is_Some (es !! n) → is_Some (es' !! n)) ∧
    (st = Nil →
     ∃ buf src out,
       rand_Read req = inl buf ∧
       png_Decode (io_LimitedReader (Body req) maxImgSize) = inl src ∧
       png_Encode (pad src 20) = inl out ∧
       public = imgURL +:+ hex buf +:+ ".png" ∧
       es' !! (hex buf +:+ ".png")
         = Some (mkNode true (N.of_nat (length out)) (arrival req) false)).
Proof.
  intros Hs H.
  assert (fs = mkFS (root fs) (Dir r es)) as Hfs
    by (destruct fs; simpl in *; by subst).
  unfold Old.save in H.
  destruct (rand_Read req) as [buf|e0] eqn:Hrand.
  2:{ exists es. simplify_eq. split; [done|]. split; [by intros ? ? [=]|].
      split; [done|]. done. }
  set (name := hex buf +:+ ".png") in *.
  assert (name ≠ "") as Hn by apply png_name_not_empty.
  destruct (os_Create _ _ _) as [fs1 [e1|]] eqn:Hc.
  { assert (fs1 = fs) as ->.
    { revert Hc. unfold os_Create. rewrite Hs.
      intros Hc. repeat (case_match; simplify_eq); done. }
    exists es. simplify_eq. split; [done|].
    split; [by intros ? ? [= <-]|]. split; [done|]. done. }
  rewrite Hfs in Hc. apply os_Create_fresh in Hc; [|done]. subst fs1.
  assert (∀ node n, is_Some (es !! n) →
            is_Some ((<[name := node]> es) !! n)) as Hgrow.
  { intros node n Hsome. destruct (decide (n = name)) as [->|Hne].
    - rewrite lookup_insert_eq. eauto.
    - by rewrite lookup_insert_ne. }
  unfold fixImage in H.
  destruct (png_Decode _) as [src|e2] eqn:Hd.
  2:{ eexists. simplify_eq. split; [done|]. split.
      - intros ? n [= <-] Hne. by rewrite lookup_insert_ne.
      - split; [apply Hgrow|done]. }
  destruct (png_Encode _) as [out|e3] eqn:He.
  2:{ eexists. simplify_eq. split; [done|]. split.
      - intros ? n [= <-] Hne. by rewrite lookup_insert_ne.
      - split; [apply Hgrow|done]. }
  rewrite os_Write_at in H by done. simpl in H.
  destruct (write_fault req) as [[written e4]|] eqn:Hw.
  { rewrite os_Write_at in H by done. simpl in H.
    eexists. simplify_eq. split; [done|]. split.
    - intros ? n [= <-] Hne. by rewrite lookup_insert_ne.
    - split; [apply Hgrow|done]. }
  assert (fs' = mkFS (root fs)
            (Dir r (<[name := mkNode true (N.of_nat (length out))
                                 (arrival req) false]> es))) as ->
    by (repeat (case_match; simplify_eq); done).
  eexists. split; [done|]. split.
  { intros ? n [= <-] Hne. by rewrite lookup_insert_ne. }
  split; [apply Hgrow|]. intros ->.
  exists buf, src, out. do 3 (split; [done|]).
  split; [|by rewrite lookup_insert_eq].
  repeat (case_match; simplify_eq); done.
Qed.

End old_and_new.

Lemma old_save_leaves_candidate_witness :
  Old.save toy_Decode toy_Encode "/saved/" tmpDir fs_five 10 req_truncated
    = ((os_Create 7 fs_five (filepath_Join tmpDir candidate_name)).1,
       "", Error ErrFormat) ∧
  (∃ info,
     os_Stat (os_Create 7 fs_five (filepath_Join tmpDir candidate_name)).1
       (filepath_Join tmpDir candidate_name) = inl info ∧
     fiName info = candidate_name) ∧
  save toy_Decode toy_Encode "/saved/" fs_five d_five 10 req_truncated
    = ((os_Remove (os_Create 7 fs_five (filepath_Join tmpDir candidate_name)).1
          (filepath_Join tmpDir candidate_name)).1,
       d_five, "", Error ErrFormat) ∧
  os_Stat
    (os_Remove (os_Create 7 fs_five (filepath_Join tmpDir candidate_name)).1
       (filepath_Join tmpDir candidate_name)).1
    (filepath_Join tmpDir candidate_name) = inr ENOENT.
Proof.
  apply (old_save_leaves_candidate toy_Decode toy_Encode "/saved/" fs_five
           d_five 10 req_truncated true {["9-5" := mkNode true 5 0 false]}
           (replicate 16 Byte.xab)
           (os_Create 7 fs_five (filepath_Join tmpDir candidate_name)).1
           (os_Create 7 fs_five (filepath_Join tmpDir candidate_name)).1
           ErrFormat).
  - vm_compute. reflexivity.
  - reflexivity.
  - reflexivity.
  - vm_compute. reflexivity.
  - left. vm_compute. reflexivity.
Defined.

Lemma old_save_only_adds_witness :
  ∃ es',
    (Old.save toy_Decode toy_Encode "/saved/" tmpDir fs_five 10 (req_at 7)).1.1
      = mkFS (root fs_five) (Dir true es') ∧
    (∀ buf n, rand_Read (req_at 7) = inl buf → n ≠ hex buf +:+ ".png" →
              es' !! n = ({["9-5" := mkNode true 5 0 false]} : gmap string Node) !! n) ∧
    (∀ n, is_Some (({["9-5" := mkNode true 5 0 false]} : gmap string Node) !! n) →
          is_Some (es' !! n)) ∧
    ((Old.save toy_Decode toy_Encode "/saved/" tmpDir fs_five 10 (req_at 7)).2 = Nil →
     ∃ buf src out,
       rand_Read (req_at 7) = inl buf ∧
       toy_Decode (io_LimitedReader (Body (req_at 7)) 10) = inl src ∧
       toy_Encode (pad src 20) = inl out ∧
       (Old.save toy_Decode toy_Encode "/saved/" tmpDir fs_five 10 (req_at 7)).1.2
         = "/saved/" +:+ hex buf +:+ ".png" ∧
       es' !! (hex buf +:+ ".png")
         = Some (mkNode true (N.of_nat (length out)) (arrival (req_at 7)) false)).
Proof.
  apply (old_save_only_adds toy_Decode toy_Encode "/saved/" fs_five 10 (req_at 7)
           true {["9-5" := mkNode true 5 0 false]}).
  - vm_compute. reflexivity.
  - by destruct (Old.save _ _ _ _ _ _ _) as [[? ?] ?].
Defined.

(** ** A drawing larger than the byte limit *)

Section oversized.

Variable png_Decode : list Byte.byte → Img.Image + error.
Variable png_Encode : Img.RGBAImage → list Byte.byte + error.

(** X23.  A reference to nothing.  In the managed directory, with a store
    whose total covers the tracked sizes and whose tracked names are not
    empty: when the encoded canvas is longer than [maxSize] (and the
    addition does not overflow) and [save] returns [nil], the response
    carries the reference [imgURL] followed by the generated name, yet
    [Add] has evicted that very file together with every file tracked
    before: nothing is tracked and none of them is on disk. *)
Theorem save_oversized_reference_dangles imgURL fs d maxImgSize req r es
    fs' d' public out :
  state fs = Dir r es → root fs = path d →
  accounted d → Forall (λ f, Name f ≠ "") (files d) →
  (∀ src, png_Decode (io_LimitedReader (Body req) maxImgSize) = inl src →
          png_Encode (pad src 20) = inl out) →
  maxSize d < Z.of_nat (length out) →
  size d + Z.of_nat (length out) ≤ max_int →
  save png_Decode png_Encode imgURL fs d maxImgSize req = (fs', d', public, Nil) →
  ∃ buf,
    rand_Read req = inl buf ∧
    public = imgURL +:+ hex buf +:+ ".png" ∧
    files d' = [] ∧
    os_Stat fs' (filepath_Join (Path d) (hex buf +:+ ".png")) = inr ENOENT ∧
    ∀ f, f ∈ files d →
         os_Stat fs' (filepath_Join (Path d) (Name f)) = inr ENOENT.
Proof.
  intros Hs Hr Hacc Hnames Henc Hbig Hov H. unfold save in H.
  destruct (rand_Read req) as [buf|e] eqn:Hrand; [|by simplify_eq].
  destruct (os_Create _ _ _) as [fs1 [e|]] eqn:Hc; [by simplify_eq|].
  destruct (fixImage _ _ _ _ _ _ _ _) as [fs2 [|e|]] eqn:Hfix;
    [|by simplify_eq..].
  destruct (close_fault req) as [e|] eqn:Hcl; [by simplify_eq|].
  destruct (Add fs2 d _) as [[fs3 d3] [|e|]] eqn:Hadd; [|by simplify_eq..].
  destruct (reply_fault req) as [e|] eqn:Hrp; simplify_eq.
  destruct (save_commit png_Decode png_Encode _ _ maxImgSize _ _ _ _ _ _
              Hs Hr Hrand Hc Hfix)
    as (src & out' & Hd & He & Hw & -> & Hst).
  assert (out' = out) as -> by (specialize (Henc src Hd); congruence).
  set (name := hex buf +:+ ".png") in *.
  assert (name ≠ "") as Hn by apply png_name_not_empty.
  set (info := mkFileInfo name (Z.of_nat (length out)) true (arrival req)) in *.
  exists buf. split; [done|]. split; [done|].
  assert (files d' = []) as Hempty.
  { eapply (Add_oversized _ d name info); try done. simpl. lia. }
  split; [done|].
  match type of Hadd with
  | Add ?fs2 _ _ = _ =>
      destruct (Add_disk fs2 d name info r _ fs' d' Nil eq_refl Hr Hnames Hn
                  Hst Hadd) as (k & Hk & ->)
  end.
  rewrite Hempty in Hk. symmetry in Hk.
  apply drop_nil_inv in Hk. rewrite take_ge by done.
  assert (∀ f, f ∈ files d ++ [mkFile name (fiSize info)] →
            os_Stat (mkFS (root fs)
                       (Dir r (deleted_all
                                 (<[name := mkNode true (N.of_nat (length out))
                                              (arrival req) false]> es)
                                 (files d ++ [mkFile name (fiSize info)]))))
              (filepath_Join (Path d) (Name f)) = inr ENOENT) as Hgone.
  { intros f Hf.
    assert (Name f ≠ "") as Hnf.
    { apply elem_of_app in Hf as [Hf|Hf].
      - rewrite Forall_forall in Hnames. by apply Hnames.
      - apply list_elem_of_singleton in Hf. by subst f. }
    unfold Path, os_Stat. simpl. rewrite <- Hr.
    rewrite (locate_Join_mk (root fs) _ _ Hnf).
    rewrite deleted_all_lookup, decide_True; [done|].
    apply list_elem_of_fmap. eauto. }
  split.
  - apply (Hgone (mkFile name (fiSize info))).
    apply elem_of_app. right. apply list_elem_of_singleton. done.
  - intros f Hf. apply Hgone. apply elem_of_app. by left.
Qed.

End oversized.

Lemma save_oversized_reference_dangles_witness :
  ∃ buf,
    rand_Read (req_at 7) = inl buf ∧
    (save toy_Decode toy_Encode "/saved/" fs_five d_five 10 (req_at 7)).1.2
      = "/saved/" +:+ hex buf +:+ ".png" ∧
    files (save toy_Decode toy_Encode "/saved/" fs_five d_five 10 (req_at 7)).1.1.2
      = [] ∧
    os_Stat (save toy_Decode toy_Encode "/saved/" fs_five d_five 10 (req_at 7)).1.1.1
      (filepath_Join (Path d_five) (hex buf +:+ ".png")) = inr ENOENT ∧
    ∀ f, f ∈ files d_five →
         os_Stat
           (save toy_Decode toy_Encode "/saved/" fs_five d_five 10 (req_at 7)).1.1.1
           (filepath_Join (Path d_five) (Name f)) = inr ENOENT.
Proof.
  apply (save_oversized_reference_dangles toy_Decode toy_Encode "/saved/"
           fs_five d_five 10 (req_at 7) true
           {["9-5" := mkNode true 5 0 false]} _ _ _
           (replicate 1681 Byte.x00)).
  - vm_compute. reflexivity.
  - reflexivity.
  - exact accounted_five.
  - repeat constructor; discriminate.
  - intros src [= <-]. vm_compute. reflexivity.
  - vm_compute. reflexivity.
  - vm_compute. discriminate.
  - vm_compute. reflexivity.
Defined.

(** ** Transparency *)

Lemma rgbaModel_opaque c : opaque c → opaque (rgbaModel c).
Proof.
  unfold opaque. destruct c; simpl; try done; intros ->; reflexivity.
Qed.

(** X24.  Padding adds no transparency.  The border [fixImage] paints is
    opaque, a pixel that is opaque in the decoded image is opaque on the
    canvas, whatever its colour type, and so a decoded image that is
    opaque everywhere gives a canvas that is opaque everywhere. *)
Theorem fixImage_keeps_opaque src :
  decoded_bounds (Bounds src) →
  let dst := pad src 20 in
  (∀ x y, Point_In (Pt x y) (RGBARect dst) = true →
          Point_In (Pt x y) (Bounds src) = false →
          opaque (RGBA_At dst x y)) ∧
  (∀ x y, Point_In (Pt x y) (Bounds src) = true →
          opaque (At src x y) → opaque (RGBA_At dst x y)) ∧
  ((∀ x y, Point_In (Pt x y) (Bounds src) = true → opaque (At src x y)) →
   ∀ x y, Point_In (Pt x y) (RGBARect dst) = true → opaque (RGBA_At dst x y)).
Proof.
  intros Hb dst.
  destruct (pad_spec src 20 Hb) as [Hr Hpix]; [lia|]. fold dst in Hr, Hpix.
  assert (∀ x y, Point_In (Pt x y) (Bounds src) = true →
            Point_In (Pt x y) (RGBARect dst) = true) as Hsub.
  { intros x y Hin. rewrite Hr.
    apply Point_In_spec in Hin. apply Point_In_spec.
    destruct Hb as (Hmin & _). rewrite Hmin in Hin. simpl in *. lia. }
  split; [|split].
  - intros x y Hin Hout. rewrite Hpix by done. unfold painted.
    rewrite Hout. reflexivity.
  - intros x y Hin Hop. rewrite Hpix by (by apply Hsub). unfold painted.
    rewrite Hin. by apply rgbaModel_opaque.
  - intros Hop x y Hin. rewrite Hpix by done. unfold painted.
    destruct (Point_In (Pt x y) (Bounds src)) eqn:Hsrc.
    + by apply rgbaModel_opaque, Hop.
    + reflexivity.
Qed.

Lemma fixImage_keeps_opaque_witness :
  opaque (RGBA_At (pad solid 20) (-20) (-20)) ∧
  opaque (RGBA_At (pad solid 20) 1 1).
Proof.
  destruct (fixImage_keeps_opaque solid decoded_bounds_solid) as (Hout & Hin & _).
  split.
  - apply Hout; [vm_compute; reflexivity|reflexivity].
  - apply Hin; [reflexivity|vm_compute; reflexivity].
Defined.
